(** * Overdr1ve race environment: a shallow embedding of [overdr1ve_env.py]

    The development follows the Python module top-down: the two cell parsers
    ([_split_track_types], [_parse_type_bonus]), the constructor of
    [Overdr1veEnv], the helpers ([_track_row], [_get_obs],
    [_upgrade_applies_on_track], [_effective_stats_for_car],
    [_rank_and_points]) and the two Gym entry points ([reset], [step]).

    Modelling conventions.
    - Python [str] values are [string]s whose characters are code points
      below 256; [str.strip], [str.split] and [int] are written out.
    - Python [float] values are exact rationals ([Q]); rounding, infinities
      and NaN are outside the model, except that the mean of an empty
      column is kept as [None].
    - Lap counts and point values are [Z]; NumPy's 64-bit columns are taken
      in the range where their arithmetic does not wrap.
    - An exception is a value of [exn]; every method of the environment
      returns the object after the call together with [inl] of the exception
      raised or [inr] of the value returned, so that the state left behind by
      a failing call is part of the result.
    - The generator [self._rng] is replaced by the values it yields: [step]
      receives the vector drawn by [normal(0, 1e-6, size=n)] as a function
      from grid index to perturbation, and [reset] receives the row order
      produced by [DataFrame.sample(frac=1.0)]. *)

From Stdlib Require Import List Bool Arith ZArith QArith Lia Lqa.
From Stdlib Require Import Ascii String.
From Stdlib Require Import Permutation Sorted.
Import ListNotations.

Local Open Scope string_scope.
Local Open Scope list_scope.

(** [length] is the length of a list throughout. *)
Abbreviation length := List.length.

(** ** Python string primitives *)

Module PyStr.

(** [str.isspace] on one code point below 256. *)
Definition is_space (c : ascii) : bool :=
  let n := nat_of_ascii c in
  (((9 <=? n) && (n <=? 13)) || ((28 <=? n) && (n <=? 32))
   || (n =? 133) || (n =? 160))%nat.

Definition is_digit (c : ascii) : bool :=
  let n := nat_of_ascii c in ((48 <=? n) && (n <=? 57))%nat.

Definition digit_val (c : ascii) : Z := Z.of_nat (nat_of_ascii c - 48)%nat.

Fixpoint lstrip (s : string) : string :=
  match s with
  | EmptyString => EmptyString
  | String c r => if is_space c then lstrip r else s
  end.

Fixpoint rstrip (s : string) : string :=
  match s with
  | EmptyString => EmptyString
  | String c r =>
      match rstrip r with
      | EmptyString => if is_space c then EmptyString else String c EmptyString
      | r' => String c r'
      end
  end.

(** [s.strip()] *)
Definition strip (s : string) : string := lstrip (rstrip s).

(** Does the next token start a new field (end of string or white space)? *)
Definition at_break (s : string) : bool :=
  match s with
  | EmptyString => true
  | String c _ => is_space c
  end.

(** [s.split()]: maximal runs of non-space characters. *)
Fixpoint split (s : string) : list string :=
  match s with
  | EmptyString => []
  | String c r =>
      if is_space c then split r
      else match split r with
           | t :: ts =>
               if at_break r then String c EmptyString :: t :: ts
               else String c t :: ts
           | [] => [String c EmptyString]
           end
  end.

(** [s.split(sep)] for a one-character separator: empty fields are kept. *)
Fixpoint split_on (sep : ascii) (s : string) : list string :=
  match s with
  | EmptyString => [EmptyString]
  | String c r =>
      if Ascii.eqb c sep then EmptyString :: split_on sep r
      else match split_on sep r with
           | t :: ts => String c t :: ts
           | [] => [String c EmptyString]
           end
  end.

(** Digits with single underscores between them, as [int] accepts. *)
Fixpoint digits (acc : Z) (after_digit : bool) (s : string) : option Z :=
  match s with
  | EmptyString => if after_digit then Some acc else None
  | String c r =>
      if is_digit c then digits (10 * acc + digit_val c)%Z true r
      else if Ascii.eqb c "_"%char
           then (if after_digit then digits acc false r else None)
           else None
  end.

(** [int(s)] in base ten on a token without white space; [None] stands for
    the [ValueError] it raises. *)
Definition int (s : string) : option Z :=
  match s with
  | String "+"%char r => digits 0%Z false r
  | String "-"%char r => option_map Z.opp (digits 0%Z false r)
  | _ => digits 0%Z false s
  end.

(** [x in l] on a list of strings. *)
Definition mem (x : string) (l : list string) : bool :=
  existsb (String.eqb x) l.

Lemma mem_In x l : mem x l = true <-> In x l.
Proof.
  unfold mem. rewrite existsb_exists. split.
  - intros [y [Hy E]]. apply String.eqb_eq in E. now subst.
  - intros H. exists x. split; [assumption | apply String.eqb_refl].
Qed.

End PyStr.

(** ** The two cell parsers *)

(** [_split_track_types]: a Python set is kept as the list of its elements;
    the environment only asks whether it is empty and whether a track type
    belongs to it. *)
Definition _split_track_types (cell : string) : list string :=
  let cell := PyStr.strip cell in
  if String.eqb cell "-" || String.eqb cell "" then []
  else filter (fun p => negb (String.eqb p ""))
         (map PyStr.strip (PyStr.split_on "/"%char cell)).

(** [_parse_type_bonus]: the [try] block around [int(parts[0])] catches every
    exception, so an empty [parts] would also give the zero pair. *)
Definition _parse_type_bonus (cell : string) : Z * Z :=
  let s := PyStr.strip cell in
  if String.eqb s "" then (0, 0)%Z
  else
    match PyStr.split s with
    | [] => (0, 0)%Z
    | p0 :: rest =>
        match PyStr.int p0 with
        | None => (0, 0)%Z
        | Some val =>
            if PyStr.mem "Core" rest then (val, 0%Z)
            else if PyStr.mem "Max" rest then (0%Z, val)
            else (0, 0)%Z
        end
    end.

(** ** Exceptions and results *)

Inductive exn : Type :=
| ValueError_agent_car_id (agent_car_id : Z) (len : nat)
| ValueError_invalid_action (action : Z) (n_actions : nat)
| ValueError_not_in_list
| IndexError
| RuntimeError_track_idx (track_idx : nat).

Definition res (A : Type) : Type := (exn + A)%type.

Definition bind {A B : Type} (m : res A) (k : A -> res B) : res B :=
  match m with
  | inl e => inl e
  | inr a => k a
  end.

Notation "x <- m ;; k" := (bind m (fun x => k))
  (at level 61, m at next level, right associativity).
Notation "' p <- m ;; k" := (bind m (fun p => k))
  (at level 61, p pattern, m at next level, right associativity).

(** [l[i]] with a non-negative index. *)
Definition getitem {A : Type} (l : list A) (i : nat) : res A :=
  match nth_error l i with
  | Some a => inr a
  | None => inl IndexError
  end.

(** ** Lists as Python and pandas use them *)

Section PyList.
Context {A : Type}.

(** Insertion into a list sorted for [ltb], before the first element that
    is not strictly smaller. *)
Fixpoint insert (ltb : A -> A -> bool) (x : A) (l : list A) : list A :=
  match l with
  | [] => [x]
  | y :: r => if ltb y x then y :: insert ltb x r else x :: y :: r
  end.

(** [sorted(l)] for the comparison [ltb]: Python's sort is stable, and on a
    total preorder the stable sorted arrangement is unique; it is computed
    here by insertion from the right. *)
Definition sorted (ltb : A -> A -> bool) (l : list A) : list A :=
  fold_right (insert ltb) [] l.

(** [l.index(x)]; [None] stands for the [ValueError]. *)
Fixpoint index (eqb : A -> A -> bool) (x : A) (l : list A) : option nat :=
  match l with
  | [] => None
  | y :: r => if eqb y x then Some 0%nat else option_map S (index eqb x r)
  end.

(** [Series.unique()]: first occurrences, in order of appearance. *)
Fixpoint unique_acc (eqb : A -> A -> bool) (seen l : list A) : list A :=
  match l with
  | [] => []
  | x :: r =>
      if existsb (eqb x) seen then unique_acc eqb seen r
      else x :: unique_acc eqb (x :: seen) r
  end.

Definition unique (eqb : A -> A -> bool) (l : list A) : list A :=
  unique_acc eqb [] l.

(** [df.drop(i).reset_index(drop=True)] on a frame with the default index. *)
Definition drop (i : nat) (l : list A) : list A :=
  firstn i l ++ skipn (S i) l.

End PyList.

(** ** Tables *)

Record TrackRow : Type := {
  Track : string;
  Total_Laps : Z;
  Track_Type : string;
  Type_Bonus : string
}.

Record CarRow : Type := {
  Car : string;
  Car_Core_Power : Q;
  Car_Max_Laps : Z;
  Car_Track_Type : string
}.

Record UpgradeRow : Type := {
  Upgrade : string;
  Upg_Core_Power : Q;
  Upg_Max_Laps : Z;
  Track_Type_Condition : string
}.

(** The two derived columns added by [_validate_cars] and
    [_validate_upgrades]. *)
Definition _CarTrackTypesSet (r : CarRow) : list string :=
  _split_track_types (Car_Track_Type r).

Definition _CondTypesSet (r : UpgradeRow) : list string :=
  _split_track_types (Track_Type_Condition r).

Record Action : Type := {
  name : string;
  add_core : Q;
  add_max : Z;
  cond : list string
}.

Definition DEFAULT_POINTS_BY_POSITION : list Z :=
  [25; 18; 15; 12; 10; 8; 6; 4; 2; 1]%Z.

(** ** The environment object *)

Record Env : Type := {
  _tracks_df_original : list TrackRow;
  cars_df : list CarRow;
  upgrades_df : option (list UpgradeRow);
  TRACK_TYPES : list string;
  agent_car_id : nat;
  agent_car : CarRow;
  opponents_df : list CarRow;
  points_by_position : list Z;
  shuffle_tracks_each_reset : bool;
  actions_catalog : list Action;
  n_actions : nat;
  obs_dim : nat;
  _tracks_df : list TrackRow;
  track_idx : nat;
  total_reward : Q
}.

Definition No_Upgrade : Action :=
  {| name := "No Upgrade"; add_core := 0; add_max := 0; cond := [] |}.

Definition action_of_row (r : UpgradeRow) : Action :=
  {| name := Upgrade r;
     add_core := Upg_Core_Power r;
     add_max := Upg_Max_Laps r;
     cond := _CondTypesSet r |}.

Definition _build_actions (upgrades : option (list UpgradeRow)) : list Action :=
  match upgrades with
  | None => [No_Upgrade]
  | Some [] => [No_Upgrade]
  | Some rows => No_Upgrade :: map action_of_row rows
  end.

(** [list(points_by_position or DEFAULT_POINTS_BY_POSITION)]: [None] and the
    empty sequence are both falsy. *)
Definition points_or_default (points : option (list Z)) : list Z :=
  match points with
  | Some (p :: ps) => p :: ps
  | _ => DEFAULT_POINTS_BY_POSITION
  end.

Definition pad_points (pts : list Z) (grid : nat) : list Z :=
  if (length pts <? grid)%nat
  then pts ++ repeat 0%Z (grid - length pts)
  else pts.

Definition __init__ (tracks_df : list TrackRow) (cars : list CarRow)
    (upgrades : option (list UpgradeRow)) (agent : Z)
    (points : option (list Z)) (shuffle : bool) : res Env :=
  let types := sorted String.ltb (unique String.eqb (map Track_Type tracks_df)) in
  if negb ((0 <=? agent)%Z && (agent <? Z.of_nat (length cars))%Z)
  then inl (ValueError_agent_car_id agent (length cars))
  else
    car <- getitem cars (Z.to_nat agent) ;;
    let catalog := _build_actions upgrades in
    inr {| _tracks_df_original := tracks_df;
           cars_df := cars;
           upgrades_df := upgrades;
           TRACK_TYPES := types;
           agent_car_id := Z.to_nat agent;
           agent_car := car;
           opponents_df := drop (Z.to_nat agent) cars;
           points_by_position := pad_points (points_or_default points) (length cars);
           shuffle_tracks_each_reset := shuffle;
           actions_catalog := catalog;
           n_actions := length catalog;
           obs_dim := (2 + length types + 1 + 2)%nat;
           _tracks_df := tracks_df;
           track_idx := 0%nat;
           total_reward := 0 |}.

(** Field updates of the three runtime attributes. *)
Definition set_runtime (e : Env) (tracks : list TrackRow) (idx : nat)
    (total : Q) : Env :=
  {| _tracks_df_original := _tracks_df_original e;
     cars_df := cars_df e;
     upgrades_df := upgrades_df e;
     TRACK_TYPES := TRACK_TYPES e;
     agent_car_id := agent_car_id e;
     agent_car := agent_car e;
     opponents_df := opponents_df e;
     points_by_position := points_by_position e;
     shuffle_tracks_each_reset := shuffle_tracks_each_reset e;
     actions_catalog := actions_catalog e;
     n_actions := n_actions e;
     obs_dim := obs_dim e;
     _tracks_df := tracks;
     track_idx := idx;
     total_reward := total |}.

(** ** Helpers *)

Definition _track_row (e : Env) : res TrackRow :=
  match nth_error (_tracks_df e) (track_idx e) with
  | Some tr => inr tr
  | None => inl (RuntimeError_track_idx (track_idx e))
  end.

(** [Series.mean()]: [None] is the NaN of an empty column. *)
Definition mean (l : list Q) : option Q :=
  match l with
  | [] => None
  | _ => Some (fold_right Qplus 0 l / inject_Z (Z.of_nat (length l)))
  end.

Definition Obs : Type := list (option Q).

Definition onehot (n idx : nat) : list (option Q) :=
  map (fun i => if (i =? idx)%nat then Some 1 else Some 0) (seq 0 n).

Definition _get_obs (e : Env) : res Obs :=
  tr <- _track_row e ;;
  match index String.eqb (Track_Type tr) (TRACK_TYPES e) with
  | None => inl ValueError_not_in_list
  | Some k =>
      inr ([Some (Car_Core_Power (agent_car e));
            Some (inject_Z (Car_Max_Laps (agent_car e)))]
           ++ onehot (length (TRACK_TYPES e)) k
           ++ [Some (inject_Z (Total_Laps tr));
               mean (map Car_Core_Power (opponents_df e));
               mean (map (fun c => inject_Z (Car_Max_Laps c)) (opponents_df e))])
  end.

Definition _upgrade_applies_on_track (e : Env) (action_idx : nat)
    (track_type : string) : res bool :=
  a <- getitem (actions_catalog e) action_idx ;;
  match cond a with
  | [] => inr true
  | _ :: _ => inr (PyStr.mem track_type (cond a))
  end.

Definition _effective_stats_for_car (e : Env) (base_core : Q) (base_max : Z)
    (track_type : string) (track_bonus_core track_bonus_max : Z)
    (action_idx : nat) : res (Q * Z * bool) :=
  let core := base_core + inject_Z track_bonus_core in
  let max_laps := (base_max + track_bonus_max)%Z in
  applies <- _upgrade_applies_on_track e action_idx track_type ;;
  if applies then
    a <- getitem (actions_catalog e) action_idx ;;
    inr (core + add_core a, (max_laps + add_max a)%Z, true)
  else inr (core, max_laps, true).

(** Comparison of the sort keys [(grid_dnf[i], -(grid_core[i] + noise[i]))]
    as Python compares tuples: the first components decide unless they are
    equal. *)
Definition Qltb (x y : Q) : bool := negb (Qle_bool y x).

Definition key_lt (k1 k2 : bool * Q) : bool :=
  if Bool.eqb (fst k1) (fst k2) then Qltb (snd k1) (snd k2)
  else negb (fst k1).

Definition rank_key (grid_core : list Q) (grid_dnf : list bool)
    (noise : nat -> Q) (i : nat) : bool * Q :=
  (nth i grid_dnf false, - (nth i grid_core 0 + noise i)).

(** The list [order] of [_rank_and_points]. *)
Definition rank_order (grid_core : list Q) (grid_dnf : list bool)
    (noise : nat -> Q) : list nat :=
  let key := rank_key grid_core grid_dnf noise in
  sorted (fun i j => key_lt (key i) (key j)) (seq 0 (length grid_core)).

(** [order.index(i) + 1]: the 1-based position of grid entry [i]. *)
Definition rank_position (grid_core : list Q) (grid_dnf : list bool)
    (noise : nat -> Q) (i : nat) : option nat :=
  option_map (fun k => (k + 1)%nat)
    (index Nat.eqb i (rank_order grid_core grid_dnf noise)).

Definition _rank_and_points (e : Env) (grid_core : list Q)
    (grid_dnf : list bool) (agent_index : nat) (noise : nat -> Q)
    : res (nat * Z) :=
  match rank_position grid_core grid_dnf noise agent_index with
  | None => inl ValueError_not_in_list
  | Some position =>
      dnf <- getitem grid_dnf agent_index ;;
      if negb dnf then
        points <- getitem (points_by_position e) (position - 1) ;;
        inr (position, points)
      else inr (position, 0%Z)
  end.

(** ** Gym API *)

(** [sample] is the row order drawn when shuffling is enabled. *)
Definition reset (e : Env) (sample : list TrackRow) : Env * res Obs :=
  let tracks :=
    if shuffle_tracks_each_reset e then sample else _tracks_df_original e in
  let e1 := set_runtime e tracks 0 0 in
  (e1, _get_obs e1).

(** The values computed by [step] before the ranking. *)
Record Grid : Type := {
  tr_row : TrackRow;
  bonus_core : Z;
  bonus_max : Z;
  agent_core : Q;
  agent_max : Z;
  agent_dnf_flag : bool;
  opp_core_eff : list Q;
  opp_max_eff : list Z;
  opp_dnf : list bool;
  grid_core : list Q;
  grid_dnf : list bool;
  agent_grid_idx : nat
}.

Definition step_grid (e : Env) (action : Z) : res Grid :=
  if negb ((0 <=? action)%Z && (action <? Z.of_nat (n_actions e))%Z)
  then inl (ValueError_invalid_action action (n_actions e))
  else
    tr <- _track_row e ;;
    let track_type := Track_Type tr in
    let req_laps := Total_Laps tr in
    let '(b_core, b_max) := _parse_type_bonus (Type_Bonus tr) in
    let agent_base_core := Car_Core_Power (agent_car e) in
    let agent_base_max := Car_Max_Laps (agent_car e) in
    '(a_core, a_max, _) <-
      _effective_stats_for_car e agent_base_core agent_base_max track_type
        b_core b_max (Z.to_nat action) ;;
    let a_dnf := (a_max <? req_laps)%Z in
    let o_core := map Car_Core_Power (opponents_df e) in
    let o_max := map Car_Max_Laps (opponents_df e) in
    let o_core_eff := map (fun c => c + inject_Z b_core) o_core in
    let o_max_eff := map (fun m => (m + b_max)%Z) o_max in
    let o_dnf := map (fun m => (m <? req_laps)%Z) o_max_eff in
    let g_core := o_core_eff ++ [a_core] in
    let g_dnf := o_dnf ++ [a_dnf] in
    inr {| tr_row := tr;
           bonus_core := b_core;
           bonus_max := b_max;
           agent_core := a_core;
           agent_max := a_max;
           agent_dnf_flag := a_dnf;
           opp_core_eff := o_core_eff;
           opp_max_eff := o_max_eff;
           opp_dnf := o_dnf;
           grid_core := g_core;
           grid_dnf := g_dnf;
           agent_grid_idx := (length g_core - 1)%nat |}.

Record StepInfo : Type := {
  info_track : string;
  info_track_type : string;
  required_laps : Z;
  type_bonus_core : Z;
  type_bonus_max : Z;
  action_name : string;
  agent_effective_core : Q;
  agent_effective_max : Z;
  agent_dnf : bool;
  position : nat;
  points : Z;
  episode_return : option Q
}.

Record StepOut : Type := {
  obs : Obs;
  reward : Q;
  terminated : bool;
  truncated : bool;
  info : StepInfo
}.

(** [step]: an exception raised before [self.total_reward += reward] leaves
    the object as it was; one raised after [self.track_idx += 1] leaves the
    advanced object. *)
Definition step (e : Env) (action : Z) (noise : nat -> Q) : Env * res StepOut :=
  match step_grid e action with
  | inl x => (e, inl x)
  | inr g =>
      match _rank_and_points e (grid_core g) (grid_dnf g) (agent_grid_idx g) noise with
      | inl x => (e, inl x)
      | inr (pos, pts) =>
          let rwd := inject_Z pts in
          let e1 := set_runtime e (_tracks_df e) (track_idx e + 1)
                      (total_reward e + rwd) in
          let term := (length (_tracks_df e1) <=? track_idx e1)%nat in
          (e1,
           o <- (if term then inr (repeat (Some 0) (obs_dim e1)) else _get_obs e1) ;;
           a <- getitem (actions_catalog e1) (Z.to_nat action) ;;
           inr {| obs := o;
                  reward := rwd;
                  terminated := term;
                  truncated := false;
                  info := {| info_track := Track (tr_row g);
                             info_track_type := Track_Type (tr_row g);
                             required_laps := Total_Laps (tr_row g);
                             type_bonus_core := bonus_core g;
                             type_bonus_max := bonus_max g;
                             action_name := name a;
                             agent_effective_core := agent_core g;
                             agent_effective_max := agent_max g;
                             agent_dnf := agent_dnf_flag g;
                             position := pos;
                             points := pts;
                             episode_return :=
                               if term then Some (total_reward e1) else None |} |})
      end
  end.

(** A run of consecutive [step] calls, one action and one noise vector each. *)
Fixpoint run_steps (e : Env) (inputs : list (Z * (nat -> Q)))
    : Env * list (res StepOut) :=
  match inputs with
  | [] => (e, [])
  | (a, nz) :: rest =>
      let '(e1, r) := step e a nz in
      let '(e2, rs) := run_steps e1 rest in
      (e2, r :: rs)
  end.

(** ** Configurations and reachable states *)

Record Config : Type := {
  cfg_tracks : list TrackRow;
  cfg_cars : list CarRow;
  cfg_upgrades : option (list UpgradeRow);
  cfg_agent : Z;
  cfg_points : option (list Z);
  cfg_shuffle : bool
}.

Definition make (c : Config) : res Env :=
  __init__ (cfg_tracks c) (cfg_cars c) (cfg_upgrades c) (cfg_agent c)
    (cfg_points c) (cfg_shuffle c).

(** What [DataFrame.sample(frac=1.0)] guarantees about the drawn order. *)
Definition sample_ok (e : Env) (sample : list TrackRow) : Prop :=
  shuffle_tracks_each_reset e = true ->
  Permutation sample (_tracks_df_original e).

(** The objects a caller can hold: the freshly built one and those left by
    any sequence of [reset] and [step] calls, failed or not. *)
Inductive reachable (c : Config) : Env -> Prop :=
| reach_make : forall e, make c = inr e -> reachable c e
| reach_reset : forall e sample,
    reachable c e -> sample_ok e sample -> reachable c (fst (reset e sample))
| reach_step : forall e action noise,
    reachable c e -> reachable c (fst (step e action noise)).

Definition valid_action (e : Env) (action : Z) : Prop :=
  (0 <= action < Z.of_nat (n_actions e))%Z.

(** ** Sample tables *)

Module Demo.

Definition tracks : list TrackRow :=
  [ {| Track := "Track 01"; Total_Laps := 50; Track_Type := "Sunny";
       Type_Bonus := "30 Core Power" |};
    {| Track := "Track 02"; Total_Laps := 60; Track_Type := "Night";
       Type_Bonus := "20 Max Laps" |} ].

Definition cars : list CarRow :=
  [ {| Car := "Car 01"; Car_Core_Power := 300; Car_Max_Laps := 50;
       Car_Track_Type := "Sunny" |};
    {| Car := "Car 09"; Car_Core_Power := 320; Car_Max_Laps := 50;
       Car_Track_Type := "-" |};
    {| Car := "Car 11"; Car_Core_Power := 300; Car_Max_Laps := 40;
       Car_Track_Type := "Sunny/Night" |} ].

Definition upgrades : list UpgradeRow :=
  [ {| Upgrade := "Upgrade 01"; Upg_Core_Power := 20; Upg_Max_Laps := 0;
       Track_Type_Condition := "-" |};
    {| Upgrade := "Upgrade 04"; Upg_Core_Power := 20; Upg_Max_Laps := 10;
       Track_Type_Condition := "Night/Rain" |} ].

Definition config : Config :=
  {| cfg_tracks := tracks; cfg_cars := cars; cfg_upgrades := Some upgrades;
     cfg_agent := 0; cfg_points := Some [10; 5]%Z; cfg_shuffle := false |}.

(** The object built from [config]. *)
Definition env : Env :=
  match make config with
  | inr e => e
  | inl _ => set_runtime
               {| _tracks_df_original := []; cars_df := []; upgrades_df := None;
                  TRACK_TYPES := []; agent_car_id := 0;
                  agent_car := {| Car := ""; Car_Core_Power := 0;
                                  Car_Max_Laps := 0; Car_Track_Type := "" |};
                  opponents_df := []; points_by_position := [];
                  shuffle_tracks_each_reset := false; actions_catalog := [];
                  n_actions := 0; obs_dim := 0; _tracks_df := [];
                  track_idx := 0; total_reward := 0 |} [] 0 0
  end.

Definition quiet : nat -> Q := fun _ => 0.

Definition blank_out : StepOut :=
  {| obs := []; reward := 0; terminated := false; truncated := false;
     info := {| info_track := ""; info_track_type := ""; required_laps := 0;
                type_bonus_core := 0; type_bonus_max := 0; action_name := "";
                agent_effective_core := 0; agent_effective_max := 0;
                agent_dnf := false; position := 0; points := 0;
                episode_return := None |} |}.

(** The value returned by a call, when it returned. *)
Definition returned (r : Env * res StepOut) : StepOut :=
  match snd r with
  | inr o => o
  | inl _ => blank_out
  end.

(** The same tables without any track. *)
Definition no_tracks : Config :=
  {| cfg_tracks := []; cfg_cars := cars; cfg_upgrades := Some upgrades;
     cfg_agent := 0; cfg_points := None; cfg_shuffle := false |}.

Definition idle_env : Env :=
  match make no_tracks with
  | inr e => e
  | inl _ => env
  end.

(** First race of the sample: upgrade 04 chosen on a sunny track. *)
Definition race1 : Env * res StepOut := step env 2 quiet.

End Demo.

Example parse_core : _parse_type_bonus "30 Core Power" = (30, 0)%Z.
Proof. reflexivity. Qed.
Example parse_max : _parse_type_bonus "  20  Max Laps " = (0, 20)%Z.
Proof. reflexivity. Qed.
Example parse_dash : _parse_type_bonus "-" = (0, 0)%Z.
Proof. reflexivity. Qed.
Example parse_us : _parse_type_bonus "1_000 Max Laps" = (0, 1000)%Z.
Proof. reflexivity. Qed.
Example split_types : _split_track_types " Sunny / Night/" = ["Sunny"; "Night"].
Proof. reflexivity. Qed.

Example demo_make : make Demo.config = inr Demo.env.
Proof. reflexivity. Qed.

Example demo_types : TRACK_TYPES Demo.env = ["Night"; "Sunny"].
Proof. reflexivity. Qed.

Example demo_points : points_by_position Demo.env = [10; 5; 0]%Z.
Proof. reflexivity. Qed.

(** An empty supplied table is falsy, so the default table is chosen. *)
Example points_empty_is_default :
  points_or_default (Some []) = DEFAULT_POINTS_BY_POSITION.
Proof. reflexivity. Qed.

(** * Properties *)

(** ** The type-bonus parser *)

Section ParserFacts.

Import PyStr.

Lemma split_lstrip s : split (lstrip s) = split s.
Proof.
  induction s as [|c r IH]; simpl; [reflexivity|].
  destruct (is_space c) eqn:Hc; [assumption|].
  simpl. now rewrite Hc.
Qed.

Lemma rstrip_head r c2 r2 :
  rstrip r = String c2 r2 -> exists r0, r = String c2 r0.
Proof.
  destruct r as [|d r0]; simpl; [discriminate|].
  destruct (rstrip r0); [destruct (is_space d)|]; intros H;
    inversion H; subst; eauto.
Qed.

Lemma split_rstrip s : split (rstrip s) = split s.
Proof.
  induction s as [|c r IH]; simpl; [reflexivity|].
  destruct (rstrip r) as [|c2 r2] eqn:Hr.
  - simpl in IH. rewrite <- IH.
    destruct (is_space c) eqn:Hc; simpl; [reflexivity|].
    now rewrite Hc.
  - destruct (rstrip_head _ _ _ Hr) as [r0 ->].
    change (split (String c (String c2 r2))) with
      (if is_space c then split (String c2 r2)
       else match split (String c2 r2) with
            | t :: ts => if at_break (String c2 r2)
                         then String c EmptyString :: t :: ts
                         else String c t :: ts
            | [] => [String c EmptyString]
            end).
    rewrite IH. reflexivity.
Qed.

Lemma split_strip s : split (strip s) = split s.
Proof. unfold strip. now rewrite split_lstrip, split_rstrip. Qed.

(** The parser as a function of the white-space separated tokens. *)
Lemma _parse_type_bonus_tokens cell :
  _parse_type_bonus cell =
  match split cell with
  | [] => (0, 0)%Z
  | p0 :: rest =>
      match int p0 with
      | None => (0, 0)%Z
      | Some val =>
          if mem "Core" rest then (val, 0%Z)
          else if mem "Max" rest then (0%Z, val)
          else (0, 0)%Z
      end
  end.
Proof.
  unfold _parse_type_bonus. cbv zeta.
  rewrite split_strip.
  destruct (String.eqb (strip cell) "") eqn:E; [|reflexivity].
  apply String.eqb_eq in E.
  pose proof (split_strip cell) as H. rewrite E in H. simpl in H.
  now rewrite <- H.
Qed.

End ParserFacts.

(** The grammar of the specification: exactly three tokens, an integer, the
    keyword [Core] or [Max], and the unit [Power] or [Laps]. A match yields
    the value and the keyword. *)
Definition spec_type_bonus_grammar (cell : string) : option (Z * string) :=
  match PyStr.split cell with
  | [n; k; u] =>
      match PyStr.int n with
      | Some v =>
          if (String.eqb k "Core" || String.eqb k "Max")
             && (String.eqb u "Power" || String.eqb u "Laps")
          then Some (v, k) else None
      | None => None
      end
  | _ => None
  end.

Example grammar_core : spec_type_bonus_grammar "30 Core Power" = Some (30%Z, "Core").
Proof. reflexivity. Qed.
Example grammar_short : spec_type_bonus_grammar "30 Core" = None.
Proof. reflexivity. Qed.




(** ** Sorting and searching *)

Section SortFacts.

Context {A : Type} (ltb : A -> A -> bool).

(** [le a b]: [b] is not strictly below [a]. *)
Definition le_of (a b : A) : Prop := ltb b a = false.

Hypothesis ltb_asym : forall a b, ltb a b = true -> ltb b a = false.
Hypothesis le_trans : forall a b c, le_of a b -> le_of b c -> le_of a c.

Lemma insert_perm x l : Permutation (insert ltb x l) (x :: l).
Proof.
  induction l as [|y r IH]; simpl; [reflexivity|].
  destruct (ltb y x); [|reflexivity].
  rewrite IH. apply perm_swap.
Qed.

Lemma sorted_perm l : Permutation (sorted ltb l) l.
Proof.
  induction l as [|x r IH]; simpl; [constructor|].
  rewrite insert_perm. now constructor.
Qed.

Lemma insert_sorted x l :
  StronglySorted le_of l -> StronglySorted le_of (insert ltb x l).
Proof.
  induction 1 as [|y r Hs IH Hy]; simpl.
  - repeat constructor.
  - destruct (ltb y x) eqn:E.
    + constructor; [assumption|].
      rewrite Forall_forall in *. intros z Hz.
      apply (Permutation_in _ (insert_perm x r)) in Hz.
      destruct Hz as [<-|Hz]; [now apply ltb_asym | now apply Hy].
    + constructor; [now constructor|].
      constructor; [exact E|].
      rewrite Forall_forall in *. intros z Hz.
      apply le_trans with y; [exact E | now apply Hy].
Qed.

Lemma sorted_sorted l : StronglySorted le_of (sorted ltb l).
Proof.
  induction l as [|x r IH]; simpl; [constructor | now apply insert_sorted].
Qed.

Context (eqb : A -> A -> bool).
Hypothesis eqb_eq : forall a b, eqb a b = true <-> a = b.

Lemma index_In x l :
  In x l -> exists k, index eqb x l = Some k /\ (k < length l)%nat.
Proof.
  induction l as [|y r IH]; simpl; [tauto|].
  intros H. destruct (eqb y x) eqn:E.
  - exists 0%nat. split; [reflexivity | lia].
  - destruct H as [H|H]; [apply eqb_eq in H; congruence|].
    destruct (IH H) as [k [-> Hk]]. exists (S k). split; [reflexivity | lia].
Qed.

(** In a sorted list a strictly smaller element is found first. *)
Lemma index_sorted_lt l x y :
  StronglySorted le_of l -> In x l -> In y l -> ltb x y = true ->
  exists kx ky, index eqb x l = Some kx /\ index eqb y l = Some ky
                /\ (kx < ky)%nat.
Proof.
  intros Hs. induction Hs as [|a r Hs IH Ha]; simpl; [tauto|].
  intros Hx Hy Hlt.
  destruct (eqb a x) eqn:Ex.
  - apply eqb_eq in Ex. subst a.
    destruct (eqb x y) eqn:Exy.
    + apply eqb_eq in Exy. subst y.
      pose proof (ltb_asym _ _ Hlt). congruence.
    + destruct Hy as [Hy|Hy]; [apply eqb_eq in Hy; congruence|].
      destruct (index_In y r Hy) as [k [-> _]].
      exists 0%nat, (S k). repeat split. lia.
  - destruct Hx as [Hx|Hx]; [apply eqb_eq in Hx; congruence|].
    destruct (eqb a y) eqn:Ey.
    + apply eqb_eq in Ey. subst a.
      rewrite Forall_forall in Ha. specialize (Ha x Hx).
      unfold le_of in Ha. congruence.
    + destruct Hy as [Hy|Hy]; [apply eqb_eq in Hy; congruence|].
      destruct (IH Hx Hy Hlt) as [kx [ky [-> [-> Hk]]]].
      exists (S kx), (S ky). repeat split. lia.
Qed.

End SortFacts.

(** ** The ranking *)

Section RankFacts.

Lemma Qltb_lt x y : Qltb x y = true <-> x < y.
Proof.
  unfold Qltb. rewrite negb_true_iff, <- not_true_iff_false, Qle_bool_iff.
  split; [apply Qnot_le_lt | apply Qlt_not_le].
Qed.

Lemma Qltb_ge x y : Qltb x y = false <-> y <= x.
Proof.
  unfold Qltb. now rewrite negb_false_iff, Qle_bool_iff.
Qed.

Lemma key_lt_asym k1 k2 : key_lt k1 k2 = true -> key_lt k2 k1 = false.
Proof.
  destruct k1 as [d1 q1], k2 as [d2 q2]. unfold key_lt. simpl.
  destruct d1, d2; simpl; try congruence;
    rewrite Qltb_lt, Qltb_ge; apply Qlt_le_weak.
Qed.

Lemma key_le_trans k1 k2 k3 :
  key_lt k2 k1 = false -> key_lt k3 k2 = false -> key_lt k3 k1 = false.
Proof.
  destruct k1 as [d1 q1], k2 as [d2 q2], k3 as [d3 q3]. unfold key_lt. simpl.
  destruct d1, d2, d3; simpl; try congruence;
    rewrite !Qltb_ge; intros; eapply Qle_trans; eassumption.
Qed.

Variables (grid_core : list Q) (grid_dnf : list bool) (noise : nat -> Q).

Let key := rank_key grid_core grid_dnf noise.
Let klt := fun i j : nat => key_lt (key i) (key j).

Lemma rank_order_perm :
  Permutation (rank_order grid_core grid_dnf noise) (seq 0 (length grid_core)).
Proof. apply sorted_perm. Qed.

Lemma rank_order_length :
  length (rank_order grid_core grid_dnf noise) = length grid_core.
Proof.
  rewrite (Permutation_length rank_order_perm). apply length_seq.
Qed.

Lemma rank_order_In i :
  In i (rank_order grid_core grid_dnf noise) <-> (i < length grid_core)%nat.
Proof.
  split; intros H.
  - apply (Permutation_in _ rank_order_perm) in H. apply in_seq in H. lia.
  - apply (Permutation_in _ (Permutation_sym rank_order_perm)).
    apply in_seq. lia.
Qed.

Lemma rank_order_sorted :
  StronglySorted (le_of klt) (rank_order grid_core grid_dnf noise).
Proof.
  apply sorted_sorted.
  - intros a b. apply key_lt_asym.
  - intros a b c. unfold le_of. apply key_le_trans.
Qed.

(** Every grid entry has a position between 1 and the size of the grid. *)
Lemma rank_position_range i :
  (i < length grid_core)%nat ->
  exists p, rank_position grid_core grid_dnf noise i = Some p
            /\ (1 <= p <= length grid_core)%nat.
Proof.
  intros H. apply rank_order_In in H.
  destruct (index_In Nat.eqb Nat.eqb_eq i _ H) as [k [E Hk]].
  unfold rank_position. rewrite E. simpl.
  rewrite rank_order_length in Hk. exists (k + 1)%nat. split; [reflexivity | lia].
Qed.

(** A strictly smaller key means a strictly better position. *)
Lemma rank_position_lt i j :
  (i < length grid_core)%nat -> (j < length grid_core)%nat ->
  key_lt (key i) (key j) = true ->
  exists p q, rank_position grid_core grid_dnf noise i = Some p
              /\ rank_position grid_core grid_dnf noise j = Some q
              /\ (p < q)%nat.
Proof.
  intros Hi Hj Hlt.
  apply rank_order_In in Hi. apply rank_order_In in Hj.
  destruct (index_sorted_lt klt (fun a b => key_lt_asym (key a) (key b))
              Nat.eqb Nat.eqb_eq _ i j rank_order_sorted Hi Hj Hlt)
    as [kx [ky [Ex [Ey Hk]]]].
  unfold rank_position. rewrite Ex, Ey. simpl.
  exists (kx + 1)%nat, (ky + 1)%nat. repeat split. lia.
Qed.

End RankFacts.

(** C3: in the order built by [_rank_and_points], a grid entry whose DNF flag
    is set has a strictly larger position than any entry whose flag is clear,
    whatever the effective core powers and whatever perturbation is drawn. *)
Theorem C3_dnf_after_finishers (grid_core : list Q) (grid_dnf : list bool)
    (noise : nat -> Q) (i j : nat) :
  length grid_dnf = length grid_core ->
  (i < length grid_core)%nat -> (j < length grid_core)%nat ->
  nth i grid_dnf false = false -> nth j grid_dnf false = true ->
  exists p q, rank_position grid_core grid_dnf noise i = Some p
              /\ rank_position grid_core grid_dnf noise j = Some q
              /\ (p < q)%nat.
Proof.
  intros _ Hi Hj Di Dj. apply rank_position_lt; try assumption.
  unfold key_lt, rank_key. simpl. now rewrite Di, Dj.
Qed.

Lemma C3_dnf_after_finishers_witness :
  exists p q,
    rank_position [300; 350] [true; false] Demo.quiet 1 = Some p
    /\ rank_position [300; 350] [true; false] Demo.quiet 0 = Some q
    /\ (p < q)%nat.
Proof.
  apply (C3_dnf_after_finishers [300; 350] [true; false] Demo.quiet 1 0);
    simpl; try reflexivity; lia.
Defined.




(** ** The invariant of reachable objects *)

Section ListFacts.

Context {A : Type}.

Lemma drop_length i (l : list A) :
  (i < length l)%nat -> (length (drop i l) + 1 = length l)%nat.
Proof.
  intros H. unfold drop.
  rewrite length_app, length_firstn, length_skipn. lia.
Qed.

Context (eqb : A -> A -> bool).
Hypothesis eqb_eq : forall a b, eqb a b = true <-> a = b.

Lemma unique_acc_In seen l x :
  In x l -> ~ In x seen -> In x (unique_acc eqb seen l).
Proof.
  revert seen. induction l as [|y r IH]; simpl; [tauto|].
  intros seen Hx Hs.
  destruct (existsb (eqb y) seen) eqn:E.
  - apply IH; [|assumption]. destruct Hx as [<-|Hx]; [|assumption].
    exfalso. apply Hs. apply existsb_exists in E.
    destruct E as [z [Hz Ez]]. apply eqb_eq in Ez. now subst.
  - destruct Hx as [->|Hx]; [now left|].
    destruct (eqb y x) eqn:Eyx.
    + apply eqb_eq in Eyx. subst. now left.
    + right. apply IH; [assumption|].
      intros [->|H]; [|tauto].
      assert (eqb x x = true) by now apply eqb_eq. congruence.
Qed.

Lemma unique_In l x : In x l -> In x (unique eqb l).
Proof. intros H. apply unique_acc_In; [assumption | intros []]. Qed.

End ListFacts.

Definition track_types_of (tracks : list TrackRow) : list string :=
  sorted String.ltb (unique String.eqb (map Track_Type tracks)).

Lemma track_types_of_In tracks tr :
  In tr tracks -> In (Track_Type tr) (track_types_of tracks).
Proof.
  intros H. unfold track_types_of.
  apply (Permutation_in _ (Permutation_sym (sorted_perm String.ltb _))).
  apply (unique_In String.eqb String.eqb_eq). now apply in_map.
Qed.

(** What the constructor establishes and every call preserves. *)
Record Inv (c : Config) (e : Env) : Prop := {
  inv_original : _tracks_df_original e = cfg_tracks c;
  inv_cars : cars_df e = cfg_cars c;
  inv_upgrades : upgrades_df e = cfg_upgrades c;
  inv_types : TRACK_TYPES e = track_types_of (cfg_tracks c);
  inv_agent_lt : (agent_car_id e < length (cfg_cars c))%nat;
  inv_agent_id : Z.of_nat (agent_car_id e) = cfg_agent c;
  inv_agent : nth_error (cfg_cars c) (agent_car_id e) = Some (agent_car e);
  inv_opponents : opponents_df e = drop (agent_car_id e) (cfg_cars c);
  inv_points :
    points_by_position e =
    pad_points (points_or_default (cfg_points c)) (length (cfg_cars c));
  inv_shuffle : shuffle_tracks_each_reset e = cfg_shuffle c;
  inv_catalog : actions_catalog e = _build_actions (cfg_upgrades c);
  inv_n_actions : n_actions e = length (actions_catalog e);
  inv_obs_dim : obs_dim e = (2 + length (TRACK_TYPES e) + 1 + 2)%nat;
  inv_perm : Permutation (_tracks_df e) (cfg_tracks c)
}.

Lemma Inv_set_runtime c e tracks idx total :
  Inv c e -> Permutation tracks (cfg_tracks c) ->
  Inv c (set_runtime e tracks idx total).
Proof.
  intros [] Hp. constructor; simpl; assumption.
Qed.

Lemma Inv_make c e : make c = inr e -> Inv c e.
Proof.
  unfold make, __init__.
  destruct (negb _) eqn:Hchk; [discriminate|].
  apply negb_false_iff, andb_true_iff in Hchk. destruct Hchk as [H0 H1].
  apply Z.leb_le in H0. apply Z.ltb_lt in H1.
  unfold getitem.
  destruct (nth_error (cfg_cars c) (Z.to_nat (cfg_agent c))) as [car|] eqn:Hc;
    simpl; [|discriminate].
  intros H. inversion H; subst; clear H.
  constructor; simpl; try reflexivity; try assumption; lia.
Qed.

(** The object left by [step] is the old one or the advanced one. *)
Lemma step_fst e action noise :
  fst (step e action noise) = e
  \/ exists pts, fst (step e action noise) =
       set_runtime e (_tracks_df e) (track_idx e + 1)
         (total_reward e + inject_Z pts).
Proof.
  unfold step. destruct (step_grid e action) as [x|g]; [now left|].
  destruct (_rank_and_points _ _ _ _ _) as [x|[pos pts]]; [now left|].
  right. exists pts. reflexivity.
Qed.

Theorem reachable_Inv c e : reachable c e -> Inv c e.
Proof.
  induction 1 as [e H | e sample _ IH Hs | e action noise _ IH].
  - now apply Inv_make.
  - unfold reset. simpl. apply Inv_set_runtime; [assumption|].
    destruct (shuffle_tracks_each_reset e) eqn:Hsh.
    + rewrite <- (inv_original c e IH). now apply Hs.
    + now rewrite (inv_original c e IH).
  - destruct (step_fst e action noise) as [-> | [pts ->]]; [assumption|].
    apply Inv_set_runtime; [assumption | apply (inv_perm c e IH)].
Qed.

(** ** Closed forms of the helpers *)

(** The test made by [_upgrade_applies_on_track] on a catalog entry. *)
Definition applies_to (act : Action) (track_type : string) : bool :=
  match cond act with
  | [] => true
  | _ :: _ => PyStr.mem track_type (cond act)
  end.

Lemma applies_to_iff act track_type :
  applies_to act track_type = true <->
  cond act = [] \/ In track_type (cond act).
Proof.
  unfold applies_to. destruct (cond act) as [|t ts] eqn:E.
  - split; [now left | reflexivity].
  - rewrite PyStr.mem_In. split; [now right|].
    intros [H|H]; [discriminate | assumption].
Qed.

Lemma _effective_stats_for_car_spec e base_core base_max track_type tb_core
    tb_max idx :
  _effective_stats_for_car e base_core base_max track_type tb_core tb_max idx =
  match nth_error (actions_catalog e) idx with
  | None => inl IndexError
  | Some act =>
      inr (if applies_to act track_type
           then (base_core + inject_Z tb_core + add_core act,
                 (base_max + tb_max + add_max act)%Z, true)
           else (base_core + inject_Z tb_core, (base_max + tb_max)%Z, true))
  end.
Proof.
  unfold _effective_stats_for_car, _upgrade_applies_on_track, getitem, applies_to.
  destruct (nth_error (actions_catalog e) idx) as [act|]; simpl; [|reflexivity].
  destruct (cond act) as [|t ts]; simpl; [reflexivity|].
  match goal with |- context [if ?b then _ else _] => destruct b end;
    reflexivity.
Qed.

(** The grid of one race, given the current track and the chosen entry. *)
Definition grid_of (e : Env) (tr : TrackRow) (act : Action) : Grid :=
  let b := _parse_type_bonus (Type_Bonus tr) in
  let a_core :=
    if applies_to act (Track_Type tr)
    then Car_Core_Power (agent_car e) + inject_Z (fst b) + add_core act
    else Car_Core_Power (agent_car e) + inject_Z (fst b) in
  let a_max :=
    if applies_to act (Track_Type tr)
    then (Car_Max_Laps (agent_car e) + snd b + add_max act)%Z
    else (Car_Max_Laps (agent_car e) + snd b)%Z in
  let o_core_eff :=
    map (fun c => c + inject_Z (fst b)) (map Car_Core_Power (opponents_df e)) in
  let o_max_eff :=
    map (fun m => (m + snd b)%Z) (map Car_Max_Laps (opponents_df e)) in
  let o_dnf := map (fun m => (m <? Total_Laps tr)%Z) o_max_eff in
  {| tr_row := tr;
     bonus_core := fst b;
     bonus_max := snd b;
     agent_core := a_core;
     agent_max := a_max;
     agent_dnf_flag := (a_max <? Total_Laps tr)%Z;
     opp_core_eff := o_core_eff;
     opp_max_eff := o_max_eff;
     opp_dnf := o_dnf;
     grid_core := o_core_eff ++ [a_core];
     grid_dnf := o_dnf ++ [(a_max <? Total_Laps tr)%Z];
     agent_grid_idx := (length (o_core_eff ++ [a_core]) - 1)%nat |}.

Lemma step_grid_spec e action :
  step_grid e action =
  if negb ((0 <=? action)%Z && (action <? Z.of_nat (n_actions e))%Z)
  then inl (ValueError_invalid_action action (n_actions e))
  else match _track_row e with
       | inl x => inl x
       | inr tr =>
           match nth_error (actions_catalog e) (Z.to_nat action) with
           | None => inl IndexError
           | Some act => inr (grid_of e tr act)
           end
       end.
Proof.
  unfold step_grid. destruct (negb _); [reflexivity|].
  destruct (_track_row e) as [x|tr]; simpl; [reflexivity|].
  destruct (_parse_type_bonus (Type_Bonus tr)) as [bc bm] eqn:Hb.
  rewrite _effective_stats_for_car_spec.
  destruct (nth_error (actions_catalog e) (Z.to_nat action)) as [act|];
    simpl; [|reflexivity].
  unfold grid_of. rewrite Hb. simpl.
  destruct (applies_to act (Track_Type tr)); reflexivity.
Qed.

Lemma valid_action_check e action :
  negb ((0 <=? action)%Z && (action <? Z.of_nat (n_actions e))%Z) = false
  <-> valid_action e action.
Proof.
  unfold valid_action.
  rewrite negb_false_iff, andb_true_iff, Z.leb_le, Z.ltb_lt. tauto.
Qed.

Lemma grid_of_lengths e tr act :
  length (grid_core (grid_of e tr act)) = (length (opponents_df e) + 1)%nat
  /\ length (grid_dnf (grid_of e tr act)) = (length (opponents_df e) + 1)%nat
  /\ agent_grid_idx (grid_of e tr act) = length (opponents_df e).
Proof.
  unfold grid_of. simpl. rewrite !length_app, !length_map. simpl.
  repeat split; lia.
Qed.

Lemma pad_points_length pts grid : (grid <= length (pad_points pts grid))%nat.
Proof.
  unfold pad_points. destruct (Nat.ltb_spec (length pts) grid); [|assumption].
  rewrite length_app, repeat_length. lia.
Qed.

Lemma _track_row_done e :
  (length (_tracks_df e) <= track_idx e)%nat ->
  _track_row e = inl (RuntimeError_track_idx (track_idx e)).
Proof.
  intros H. unfold _track_row.
  apply nth_error_None in H. now rewrite H.
Qed.

Lemma _track_row_in_progress e :
  (track_idx e < length (_tracks_df e))%nat ->
  exists tr, _track_row e = inr tr /\ In tr (_tracks_df e).
Proof.
  intros H. unfold _track_row.
  destruct (nth_error (_tracks_df e) (track_idx e)) as [tr|] eqn:E.
  - exists tr. split; [reflexivity | now apply nth_error_In in E].
  - apply nth_error_None in E. lia.
Qed.

(** The ranking of a well-sized grid never fails. *)
Lemma _rank_and_points_ok e core dnf k noise :
  length dnf = length core -> (k < length core)%nat ->
  (length core <= length (points_by_position e))%nat ->
  exists pos pts d,
    _rank_and_points e core dnf k noise = inr (pos, pts)
    /\ rank_position core dnf noise k = Some pos
    /\ (1 <= pos <= length core)%nat
    /\ nth_error dnf k = Some d
    /\ (if d then pts = 0%Z
        else nth_error (points_by_position e) (pos - 1) = Some pts).
Proof.
  intros Hl Hk Hp.
  destruct (rank_position_range core dnf noise k Hk) as [pos [E Hpos]].
  unfold _rank_and_points, getitem. rewrite E.
  destruct (nth_error dnf k) as [d|] eqn:Ed;
    [|apply nth_error_None in Ed; lia].
  simpl. destruct d; simpl.
  - exists pos, 0%Z, true. repeat split; try assumption; lia.
  - destruct (nth_error (points_by_position e) (pos - 1)) as [pts|] eqn:Ep;
      [|apply nth_error_None in Ep; lia].
    simpl. exists pos, pts, false. repeat split; try assumption; lia.
Qed.

Lemma _get_obs_ok c e :
  Inv c e -> (track_idx e < length (_tracks_df e))%nat ->
  exists o, _get_obs e = inr o.
Proof.
  intros HI H. destruct (_track_row_in_progress e H) as [tr [E Hin]].
  unfold _get_obs. rewrite E. simpl.
  assert (Hty : In (Track_Type tr) (TRACK_TYPES e)).
  { rewrite (inv_types c e HI). apply track_types_of_In.
    apply (Permutation_in _ (inv_perm c e HI)). assumption. }
  destruct (index_In String.eqb String.eqb_eq _ _ Hty) as [k [-> _]].
  eexists. reflexivity.
Qed.

Lemma catalog_lookup c e action :
  Inv c e -> valid_action e action ->
  exists act, nth_error (actions_catalog e) (Z.to_nat action) = Some act.
Proof.
  intros HI [H0 H1]. rewrite (inv_n_actions c e HI) in H1.
  destruct (nth_error (actions_catalog e) (Z.to_nat action)) as [act|] eqn:E;
    [eauto|].
  apply nth_error_None in E. lia.
Qed.

(** ** One call of [step] *)

(** The object after a successful race. *)
Definition advance (e : Env) (pts : Z) : Env :=
  set_runtime e (_tracks_df e) (track_idx e + 1) (total_reward e + inject_Z pts).

(** What a returned [step] has computed. *)
Lemma step_inr e action noise e' out :
  step e action noise = (e', inr out) ->
  exists g pos pts,
    step_grid e action = inr g
    /\ _rank_and_points e (grid_core g) (grid_dnf g) (agent_grid_idx g) noise
       = inr (pos, pts)
    /\ e' = advance e pts
    /\ reward out = inject_Z pts
    /\ terminated out = (length (_tracks_df e) <=? track_idx e + 1)%nat
    /\ position (info out) = pos
    /\ points (info out) = pts
    /\ agent_dnf (info out) = agent_dnf_flag g
    /\ agent_effective_core (info out) = agent_core g
    /\ agent_effective_max (info out) = agent_max g
    /\ required_laps (info out) = Total_Laps (tr_row g).
Proof.
  unfold step.
  destruct (step_grid e action) as [x|g]; [discriminate|].
  destruct (_rank_and_points _ _ _ _ _) as [x|[pos pts]] eqn:Er;
    [discriminate|].
  intros H. injection H as He Hout. exists g, pos, pts.
  simpl in Hout.
  destruct (if (length (_tracks_df e) <=? track_idx e + 1)%nat
            then _ else _) as [x|o]; [discriminate|].
  simpl in Hout.
  destruct (getitem (actions_catalog e) (Z.to_nat action)) as [x|a];
    [discriminate|].
  simpl in Hout. injection Hout as <-. simpl.
  repeat split; try reflexivity; [exact Er | now symmetry].
Qed.

(** In progress and with a valid action, [step] returns. *)
Lemma step_ok c e action noise :
  Inv c e -> valid_action e action ->
  (track_idx e < length (_tracks_df e))%nat ->
  exists pts out,
    step e action noise = (advance e pts, inr out)
    /\ terminated out = (length (_tracks_df e) <=? track_idx e + 1)%nat.
Proof.
  intros HI Hv Hidx.
  destruct (_track_row_in_progress e Hidx) as [tr [Etr _]].
  destruct (catalog_lookup c e action HI Hv) as [act Eact].
  assert (Eg : step_grid e action = inr (grid_of e tr act)).
  { rewrite step_grid_spec, Etr, Eact.
    now rewrite (proj2 (valid_action_check e action) Hv). }
  destruct (grid_of_lengths e tr act) as [Lc [Ld Li]].
  assert (Hcars : (length (opponents_df e) + 1 = length (cfg_cars c))%nat).
  { rewrite (inv_opponents c e HI). apply drop_length, (inv_agent_lt c e HI). }
  destruct (_rank_and_points_ok e (grid_core (grid_of e tr act))
              (grid_dnf (grid_of e tr act))
              (agent_grid_idx (grid_of e tr act)) noise)
    as [pos [pts [d [Er _]]]].
  { congruence. }
  { lia. }
  { rewrite Lc, Hcars, (inv_points c e HI). apply pad_points_length. }
  unfold step. rewrite Eg, Er. fold (advance e pts).
  assert (HI1 : Inv c (advance e pts))
    by (apply Inv_set_runtime; [assumption | apply (inv_perm c e HI)]).
  change (_tracks_df (advance e pts)) with (_tracks_df e).
  change (track_idx (advance e pts)) with (track_idx e + 1)%nat.
  change (actions_catalog (advance e pts)) with (actions_catalog e).
  unfold getitem at 1. rewrite Eact.
  destruct (Nat.leb_spec (length (_tracks_df e)) (track_idx e + 1)) as [Hdone|Hmore].
  - simpl. eexists pts, _. split; reflexivity.
  - destruct (_get_obs_ok c (advance e pts) HI1) as [o Eo]; [exact Hmore|].
    rewrite Eo. simpl. eexists pts, _. split; reflexivity.
Qed.

(** Past the last track a valid action is answered by the cursor error and
    the object is left as it was. *)
Lemma step_done e action noise :
  valid_action e action -> (length (_tracks_df e) <= track_idx e)%nat ->
  step e action noise = (e, inl (RuntimeError_track_idx (track_idx e))).
Proof.
  intros Hv Hidx. unfold step.
  rewrite step_grid_spec, (proj2 (valid_action_check e action) Hv).
  now rewrite (_track_row_done e Hidx).
Qed.

(** Out of range, the action error and the object as it was. *)
Lemma step_invalid e action noise :
  ~ valid_action e action ->
  step e action noise =
  (e, inl (ValueError_invalid_action action (n_actions e))).
Proof.
  intros Hv. unfold step. rewrite step_grid_spec.
  destruct (negb _) eqn:E; [reflexivity|].
  apply valid_action_check in E. contradiction.
Qed.

(** ** Effective stats and DNF flags *)


Example race1_returns :
  Demo.race1 = (fst Demo.race1, inr (Demo.returned Demo.race1)).
Proof. reflexivity. Qed.


(** C2: in every returned [step], the DNF flag of each grid entry, opponents
    first and the agent last, is set exactly when that entry's effective max
    laps is strictly below the track's required laps; the flag reported for
    the agent obeys the same test on the reported values. *)
Theorem C2_dnf_iff_short_of_laps (e : Env) (action : Z) (noise : nat -> Q)
    (e' : Env) (out : StepOut) :
  step e action noise = (e', inr out) ->
  exists g,
    step_grid e action = inr g
    /\ length (grid_dnf g) = length (opp_max_eff g ++ [agent_max g])
    /\ (forall i m,
          nth_error (opp_max_eff g ++ [agent_max g]) i = Some m ->
          exists d, nth_error (grid_dnf g) i = Some d
                    /\ (d = true <-> (m < Total_Laps (tr_row g))%Z))
    /\ (agent_dnf (info out) = true <->
        (agent_effective_max (info out) < required_laps (info out))%Z).
Proof.
  intros H. apply step_inr in H.
  destruct H as (g & pos & pts & Hg & _ & _ & _ & _ & _ & _ & Hd & _ & Hm & Hr).
  exists g. split; [assumption|].
  pose proof Hg as Hg'. rewrite step_grid_spec in Hg'.
  destruct (negb _); [discriminate|].
  destruct (_track_row e) as [x|tr]; [discriminate|].
  destruct (nth_error (actions_catalog e) (Z.to_nat action)) as [act|];
    [|discriminate].
  injection Hg' as Hgo.
  assert (Hflags : grid_dnf g =
            map (fun m => (m <? Total_Laps (tr_row g))%Z)
              (opp_max_eff g ++ [agent_max g])).
  { rewrite <- Hgo. unfold grid_of. simpl. now rewrite map_app. }
  split; [|split].
  - now rewrite Hflags, length_map.
  - intros i m Hi. rewrite Hflags, nth_error_map, Hi. simpl.
    eexists. split; [reflexivity | apply Z.ltb_lt].
  - rewrite Hd, Hm, Hr, <- Hgo. unfold grid_of. simpl. apply Z.ltb_lt.
Qed.

Lemma C2_dnf_iff_short_of_laps_witness :
  exists g, step_grid Demo.env 2 = inr g
            /\ length (grid_dnf g) = 3%nat
            /\ (agent_dnf (info (Demo.returned Demo.race1)) = true
                <-> (50 < 50)%Z).
Proof.
  destruct (C2_dnf_iff_short_of_laps Demo.env 2 Demo.quiet (fst Demo.race1)
              (Demo.returned Demo.race1) eq_refl)
    as (g & Hg & Hl & _ & Ha).
  exists g. split; [exact Hg|]. split; [|exact Ha].
  rewrite Hl. injection Hg as <-. reflexivity.
Defined.

(** ** Points *)

Lemma pad_points_app pts grid :
  pad_points pts grid = pts ++ repeat 0%Z (grid - length pts).
Proof.
  unfold pad_points. destruct (Nat.ltb_spec (length pts) grid) as [H|H];
    [reflexivity|].
  replace (grid - length pts)%nat with 0%nat by lia.
  simpl. now rewrite app_nil_r.
Qed.


Lemma step_grid_inr e action g :
  step_grid e action = inr g ->
  exists tr act, _track_row e = inr tr
                 /\ nth_error (actions_catalog e) (Z.to_nat action) = Some act
                 /\ g = grid_of e tr act.
Proof.
  rewrite step_grid_spec. destruct (negb _); [discriminate|].
  destruct (_track_row e) as [x|tr]; [discriminate|].
  destruct (nth_error (actions_catalog e) (Z.to_nat action)) as [act|];
    [|discriminate].
  intros H. injection H as <-. now exists tr, act.
Qed.



(** C10: for every reachable object, whenever [step] gets as far as the
    ranking, the ranking returns; the agent's position lies between 1 and the
    number of cars, the points table is at least as long as the number of
    cars, and so the index used for the lookup is inside the table. *)
Theorem C10_points_lookup_in_bounds (c : Config) (e : Env) (action : Z)
    (g : Grid) (noise : nat -> Q) :
  reachable c e ->
  step_grid e action = inr g ->
  exists pos pts,
    _rank_and_points e (grid_core g) (grid_dnf g) (agent_grid_idx g) noise
    = inr (pos, pts)
    /\ (1 <= pos <= length (cars_df e))%nat
    /\ (length (cars_df e) <= length (points_by_position e))%nat
    /\ (pos - 1 < length (points_by_position e))%nat.
Proof.
  intros Hr Hg. apply reachable_Inv in Hr.
  destruct (step_grid_inr e action g Hg) as (tr & act & _ & _ & ->).
  destruct (grid_of_lengths e tr act) as [Lc [Ld Li]].
  assert (Hcars : (length (opponents_df e) + 1 = length (cars_df e))%nat).
  { rewrite (inv_opponents c e Hr), (inv_cars c e Hr).
    apply drop_length, (inv_agent_lt c e Hr). }
  assert (Htab : (length (cars_df e) <= length (points_by_position e))%nat).
  { rewrite (inv_points c e Hr), (inv_cars c e Hr). apply pad_points_length. }
  destruct (_rank_and_points_ok e (grid_core (grid_of e tr act))
              (grid_dnf (grid_of e tr act))
              (agent_grid_idx (grid_of e tr act)) noise)
    as [pos [pts [d [Er [_ [Hpos _]]]]]]; try lia.
  exists pos, pts. repeat split; try assumption; lia.
Qed.

Lemma C10_points_lookup_in_bounds_witness :
  exists pos pts,
    _rank_and_points Demo.env (grid_core (grid_of Demo.env
        {| Track := "Track 01"; Total_Laps := 50; Track_Type := "Sunny";
           Type_Bonus := "30 Core Power" |} No_Upgrade))
      (grid_dnf (grid_of Demo.env
        {| Track := "Track 01"; Total_Laps := 50; Track_Type := "Sunny";
           Type_Bonus := "30 Core Power" |} No_Upgrade))
      (agent_grid_idx (grid_of Demo.env
        {| Track := "Track 01"; Total_Laps := 50; Track_Type := "Sunny";
           Type_Bonus := "30 Core Power" |} No_Upgrade)) Demo.quiet
    = inr (pos, pts)
    /\ (1 <= pos <= 3)%nat
    /\ (3 <= 3)%nat
    /\ (pos - 1 < 3)%nat.
Proof.
  exact (C10_points_lookup_in_bounds Demo.config Demo.env 0 _ Demo.quiet
           (reach_make Demo.config Demo.env eq_refl) eq_refl).
Defined.

(** ** Action range *)

Lemma _build_actions_length upgrades :
  length (_build_actions upgrades) =
  match upgrades with
  | None => 1%nat
  | Some rows => (1 + length rows)%nat
  end.
Proof.
  destruct upgrades as [[|r rows]|]; simpl; try reflexivity.
  now rewrite length_map.
Qed.

(** C7: on a reachable object, [n_actions] is one more than the number of
    upgrade rows, and one without an upgrade table; [step] raises the action
    error exactly when the action is outside [0, n_actions); and in that case
    the object is left exactly as it was, cursor and accumulated return
    included. *)
Theorem C7_action_range (c : Config) (e : Env) (action : Z) (noise : nat -> Q) :
  reachable c e ->
  n_actions e = match cfg_upgrades c with
                | None => 1%nat
                | Some rows => (1 + length rows)%nat
                end
  /\ ((exists a n, snd (step e action noise) = inl (ValueError_invalid_action a n))
      <-> ~ valid_action e action)
  /\ (~ valid_action e action ->
      step e action noise
      = (e, inl (ValueError_invalid_action action (n_actions e)))).
Proof.
  intros Hr. apply reachable_Inv in Hr. split; [|split].
  - rewrite (inv_n_actions c e Hr), (inv_catalog c e Hr).
    apply _build_actions_length.
  - split.
    + intros (a & n & H) Hv.
      destruct (Nat.lt_ge_cases (track_idx e) (length (_tracks_df e))) as [Hi|Hi].
      * destruct (step_ok c e action noise Hr Hv Hi) as (pts & out & E & _).
        rewrite E in H. discriminate.
      * rewrite (step_done e action noise Hv Hi) in H. discriminate.
    + intros Hv. rewrite (step_invalid e action noise Hv). simpl. eauto.
  - apply step_invalid.
Qed.

Lemma C7_action_range_witness :
  n_actions Demo.env = 3%nat
  /\ step Demo.env 3 Demo.quiet
     = (Demo.env, inl (ValueError_invalid_action 3 3)).
Proof.
  destruct (C7_action_range Demo.config Demo.env 3 Demo.quiet
              (reach_make Demo.config Demo.env eq_refl)) as (Hn & _ & Hbad).
  split; [exact Hn|]. apply Hbad.
  unfold valid_action. simpl. lia.
Defined.

(** ** Reset and the length of an episode *)

(** C9, as stated, fails: on an environment built without any track, [reset]
    raises the cursor error of [_track_row] instead of returning. *)
Lemma C9_reset_raises_without_tracks :
  ~ (forall c e sample,
       reachable c e -> sample_ok e sample ->
       exists o, snd (reset e sample) = inr o).
Proof.
  intros H.
  destruct (H Demo.no_tracks Demo.idle_env []
              (reach_make Demo.no_tracks Demo.idle_env eq_refl)) as [o Ho].
  - intros Hs. discriminate Hs.
  - discriminate Ho.
Qed.

(** C9, amended: [reset] always sets the cursor and the accumulated return to
    0 and installs an arrangement of the configured tracks (the configured
    order itself without shuffling); when there is at least one track it
    returns the observation of the first track and the cursor is in range (in
    progress); when there is none it raises the cursor error. *)
Theorem C9_reset (c : Config) (e : Env) (sample : list TrackRow) :
  reachable c e -> sample_ok e sample ->
  track_idx (fst (reset e sample)) = 0%nat
  /\ total_reward (fst (reset e sample)) = 0
  /\ Permutation (_tracks_df (fst (reset e sample))) (cfg_tracks c)
  /\ (shuffle_tracks_each_reset e = false ->
      _tracks_df (fst (reset e sample)) = cfg_tracks c)
  /\ (cfg_tracks c <> [] ->
      (track_idx (fst (reset e sample))
       < length (_tracks_df (fst (reset e sample))))%nat
      /\ exists o, snd (reset e sample) = inr o
                   /\ _get_obs (fst (reset e sample)) = inr o)
  /\ (cfg_tracks c = [] ->
      snd (reset e sample) = inl (RuntimeError_track_idx 0)).
Proof.
  intros Hr Hs.
  assert (HI1 : Inv c (fst (reset e sample)))
    by (apply reachable_Inv, reach_reset; assumption).
  apply reachable_Inv in Hr.
  assert (Hp := inv_perm c _ HI1).
  split; [reflexivity|]. split; [reflexivity|]. split; [exact Hp|].
  split; [|split].
  - intros Hsh. unfold reset. simpl. rewrite Hsh. apply (inv_original c e Hr).
  - intros Hne.
    assert (Hlen : (0 < length (_tracks_df (fst (reset e sample))))%nat).
    { rewrite (Permutation_length Hp).
      destruct (cfg_tracks c); [congruence | simpl; lia]. }
    split; [exact Hlen|].
    destruct (_get_obs_ok c _ HI1 Hlen) as [o Ho].
    exists o. split; [exact Ho | exact Ho].
  - intros Hnil. rewrite Hnil in Hp.
    apply Permutation_sym, Permutation_nil in Hp.
    change (snd (reset e sample)) with (_get_obs (fst (reset e sample))).
    unfold _get_obs, _track_row. rewrite Hp. reflexivity.
Qed.

Lemma C9_reset_witness :
  track_idx (fst (reset (fst Demo.race1) [])) = 0%nat
  /\ total_reward (fst (reset (fst Demo.race1) [])) = 0
  /\ exists o, snd (reset (fst Demo.race1) []) = inr o.
Proof.
  destruct (C9_reset Demo.config (fst Demo.race1) []
              (reach_step Demo.config Demo.env 2 Demo.quiet
                 (reach_make Demo.config Demo.env eq_refl))
              (fun H : false = true =>
                 False_ind _ (Bool.diff_false_true H)))
    as (Hi & Ht & _ & _ & Hok & _).
  split; [exact Hi|]. split; [exact Ht|].
  destruct Hok as [_ [o [Ho _]]]; [discriminate|].
  exists o. exact Ho.
Defined.

(** Split a conjunction into its parts without touching the parts. *)
Ltac split_ands := repeat match goal with |- _ /\ _ => split end.





(** * Further properties of the module *)

(** ** The constructor *)


(** X2: the opponents table is the cars table with the agent's row taken out
    and the order kept: rows before the agent keep their index, rows after it
    move up by one, and one row fewer remains; the agent's row is the one at
    [agent_car_id]. *)
Theorem X2_opponents_are_the_other_cars (c : Config) (e : Env) :
  reachable c e ->
  (length (opponents_df e) + 1 = length (cars_df e))%nat
  /\ nth_error (cars_df e) (agent_car_id e) = Some (agent_car e)
  /\ (forall i, (i < agent_car_id e)%nat ->
        nth_error (opponents_df e) i = nth_error (cars_df e) i)
  /\ (forall i, (agent_car_id e <= i)%nat ->
        nth_error (opponents_df e) i = nth_error (cars_df e) (S i)).
Proof.
  intros Hr. apply reachable_Inv in Hr.
  rewrite (inv_opponents c e Hr), (inv_cars c e Hr).
  pose proof (inv_agent_lt c e Hr) as Hlt.
  split; [now apply drop_length|]. split; [apply (inv_agent c e Hr)|].
  unfold drop. split; intros i Hi.
  - rewrite nth_error_app1 by (rewrite length_firstn; lia).
    rewrite nth_error_firstn.
    destruct (Nat.ltb_spec i (agent_car_id e)); [reflexivity | lia].
  - rewrite nth_error_app2 by (rewrite length_firstn; lia).
    rewrite nth_error_skipn, length_firstn. f_equal. lia.
Qed.

Lemma X2_opponents_are_the_other_cars_witness :
  (length (opponents_df Demo.env) + 1 = length (cars_df Demo.env))%nat
  /\ nth_error (opponents_df Demo.env) 0 = nth_error (cars_df Demo.env) 1.
Proof.
  destruct (X2_opponents_are_the_other_cars Demo.config Demo.env
              (reach_make Demo.config Demo.env eq_refl))
    as (Hl & _ & _ & Hafter).
  split; [exact Hl|]. apply Hafter. simpl. lia.
Defined.

(** The complete shape of what a returned [step] hands back. *)
Lemma step_out_shape e action noise e' out :
  step e action noise = (e', inr out) ->
  exists g pos pts act,
    step_grid e action = inr g
    /\ _rank_and_points e (grid_core g) (grid_dnf g) (agent_grid_idx g) noise
       = inr (pos, pts)
    /\ nth_error (actions_catalog e) (Z.to_nat action) = Some act
    /\ e' = advance e pts
    /\ (if (length (_tracks_df e) <=? track_idx e + 1)%nat
        then obs out = repeat (Some 0) (obs_dim e)
        else _get_obs e' = inr (obs out))
    /\ reward out = inject_Z pts
    /\ terminated out = (length (_tracks_df e) <=? track_idx e + 1)%nat
    /\ truncated out = false
    /\ info out =
       {| info_track := Track (tr_row g);
          info_track_type := Track_Type (tr_row g);
          required_laps := Total_Laps (tr_row g);
          type_bonus_core := bonus_core g;
          type_bonus_max := bonus_max g;
          action_name := name act;
          agent_effective_core := agent_core g;
          agent_effective_max := agent_max g;
          agent_dnf := agent_dnf_flag g;
          position := pos;
          points := pts;
          episode_return :=
            if (length (_tracks_df e) <=? track_idx e + 1)%nat
            then Some (total_reward e + inject_Z pts) else None |}.
Proof.
  unfold step.
  destruct (step_grid e action) as [x|g]; [discriminate|].
  destruct (_rank_and_points _ _ _ _ _) as [x|[pos pts]] eqn:Er;
    [discriminate|].
  intros H. injection H as He Hout. fold (advance e pts) in He, Hout.
  change (_tracks_df (advance e pts)) with (_tracks_df e) in Hout.
  change (track_idx (advance e pts)) with (track_idx e + 1)%nat in Hout.
  change (actions_catalog (advance e pts)) with (actions_catalog e) in Hout.
  change (obs_dim (advance e pts)) with (obs_dim e) in Hout.
  change (total_reward (advance e pts))
    with (total_reward e + inject_Z pts) in Hout.
  unfold getitem in Hout.
  destruct (nth_error (actions_catalog e) (Z.to_nat action)) as [act|];
    [|destruct (if (length (_tracks_df e) <=? track_idx e + 1)%nat
                then _ else _); discriminate].
  exists g, pos, pts, act. subst e'.
  destruct (length (_tracks_df e) <=? track_idx e + 1)%nat.
  - cbn [bind] in Hout. injection Hout as <-. cbn.
    split_ands; reflexivity || assumption.
  - destruct (_get_obs (advance e pts)) as [x|o]; [discriminate|].
    cbn [bind] in Hout. injection Hout as <-. cbn.
    split_ands; reflexivity || assumption.
Qed.

(** ** The action catalog *)

(** X3: in every returned [step] on a reachable object, action 0 is reported
    as "No Upgrade" and action k+1 is reported under the name of the k-th row
    of the upgrades table, in file order; there is no other action. *)
Theorem X3_action_names_follow_rows (c : Config) (e : Env) (action : Z)
    (noise : nat -> Q) (e' : Env) (out : StepOut) :
  reachable c e ->
  step e action noise = (e', inr out) ->
  (action = 0%Z /\ action_name (info out) = "No Upgrade")
  \/ (exists rows row,
        cfg_upgrades c = Some rows
        /\ (1 <= action)%Z
        /\ nth_error rows (Z.to_nat action - 1) = Some row
        /\ action_name (info out) = Upgrade row).
Proof.
  intros Hr H. apply reachable_Inv in Hr.
  destruct (step_out_shape _ _ _ _ _ H)
    as (g & pos & pts & act & Hg & _ & Hact & _ & _ & _ & _ & _ & Hinfo).
  rewrite Hinfo. cbn [action_name info].
  rewrite step_grid_spec in Hg.
  destruct (negb _) eqn:Hv; [discriminate|]. apply valid_action_check in Hv.
  destruct Hv as [H0 _].
  rewrite (inv_catalog c e Hr) in Hact.
  destruct (Z.eq_dec action 0) as [->|Hne].
  - left. split; [reflexivity|].
    destruct (cfg_upgrades c) as [[|r rows]|]; simpl in Hact;
      injection Hact as <-; reflexivity.
  - right.
    assert (Hs : Z.to_nat action = S (Z.to_nat action - 1)) by lia.
    rewrite Hs in Hact.
    destruct (cfg_upgrades c) as [[|r rows]|]; simpl in Hact.
    + destruct (Z.to_nat action - 1)%nat; discriminate.
    + change (nth_error (map action_of_row (r :: rows)) (Z.to_nat action - 1)
              = Some act) in Hact.
      rewrite nth_error_map in Hact.
      destruct (nth_error (r :: rows) (Z.to_nat action - 1)) as [row|] eqn:En;
        [|discriminate].
      exists (r :: rows), row. injection Hact as <-.
      split_ands; try reflexivity; try assumption. lia.
    + destruct (Z.to_nat action - 1)%nat; discriminate.
Qed.

Lemma X3_action_names_follow_rows_witness :
  exists rows row,
    cfg_upgrades Demo.config = Some rows
    /\ nth_error rows 1 = Some row
    /\ action_name (info (Demo.returned Demo.race1)) = Upgrade row.
Proof.
  destruct (X3_action_names_follow_rows Demo.config Demo.env 2 Demo.quiet
              (fst Demo.race1) (Demo.returned Demo.race1)
              (reach_make Demo.config Demo.env eq_refl) eq_refl)
    as [[H _] | (rows & row & Hc & _ & Hn & Ha)]; [discriminate H|].
  exists rows, row. split; [exact Hc|]. split; [exact Hn | exact Ha].
Defined.

(** ** The cell parsers *)

(** Every character of the string passes the test. *)
Fixpoint all_chars (P : ascii -> bool) (s : string) : bool :=
  match s with
  | EmptyString => true
  | String c r => P c && all_chars P r
  end.

(** The string is empty or begins with a character that is not white space. *)
Definition starts_clean (s : string) : bool :=
  match s with
  | EmptyString => true
  | String c _ => negb (PyStr.is_space c)
  end.

(** The string is empty or ends with a character that is not white space. *)
Fixpoint ends_clean (s : string) : bool :=
  match s with
  | EmptyString => true
  | String c r =>
      match r with
      | EmptyString => negb (PyStr.is_space c)
      | String _ _ => ends_clean r
      end
  end.

Section StripFacts.

Import PyStr.

Lemma lstrip_clean s : starts_clean s = true -> lstrip s = s.
Proof.
  destruct s as [|c r]; simpl; [reflexivity|].
  intros H. apply negb_true_iff in H. now rewrite H.
Qed.

Lemma rstrip_clean s : ends_clean s = true -> rstrip s = s.
Proof.
  induction s as [|c r IH]; [reflexivity|].
  destruct r as [|d r'].
  - simpl. intros H. apply negb_true_iff in H. now rewrite H.
  - intros H. change (ends_clean (String d r') = true) in H.
    change (rstrip (String c (String d r')))
      with (match rstrip (String d r') with
            | EmptyString => if is_space c then EmptyString
                             else String c EmptyString
            | String a b => String c (String a b)
            end).
    now rewrite (IH H).
Qed.

Lemma rstrip_ends_clean s : ends_clean (rstrip s) = true.
Proof.
  induction s as [|c r IH]; [reflexivity|]. simpl.
  destruct (rstrip r) as [|d r'] eqn:E.
  - destruct (is_space c) eqn:Hc; simpl; [reflexivity | now rewrite Hc].
  - exact IH.
Qed.

Lemma lstrip_starts_clean s : starts_clean (lstrip s) = true.
Proof.
  induction s as [|c r IH]; [reflexivity|]. simpl.
  destruct (is_space c) eqn:Hc; [exact IH|]. simpl. now rewrite Hc.
Qed.

Lemma lstrip_ends_clean s : ends_clean s = true -> ends_clean (lstrip s) = true.
Proof.
  induction s as [|c r IH]; [reflexivity|]. intros H. simpl.
  destruct (is_space c) eqn:Hc; [|exact H].
  destruct r as [|d r']; [reflexivity|]. apply IH. exact H.
Qed.

Lemma strip_clean s :
  starts_clean s = true -> ends_clean s = true -> strip s = s.
Proof.
  intros Hs He. unfold strip. rewrite (rstrip_clean s He).
  now apply lstrip_clean.
Qed.

Lemma strip_is_clean s :
  starts_clean (strip s) = true /\ ends_clean (strip s) = true.
Proof.
  unfold strip. split; [apply lstrip_starts_clean|].
  apply lstrip_ends_clean, rstrip_ends_clean.
Qed.

Lemma strip_idempotent s : strip (strip s) = strip s.
Proof. destruct (strip_is_clean s). now apply strip_clean. Qed.

Lemma lstrip_all_chars P s : all_chars P s = true -> all_chars P (lstrip s) = true.
Proof.
  induction s as [|c r IH]; [reflexivity|]. simpl. intros H.
  apply andb_true_iff in H. destruct H as [Hc Hr].
  destruct (is_space c); [now apply IH|]. simpl. now rewrite Hc, Hr.
Qed.

Lemma rstrip_all_chars P s : all_chars P s = true -> all_chars P (rstrip s) = true.
Proof.
  induction s as [|c r IH]; [reflexivity|]. simpl. intros H.
  apply andb_true_iff in H. destruct H as [Hc Hr].
  specialize (IH Hr).
  destruct (rstrip r) as [|d r'].
  - destruct (is_space c); simpl; [reflexivity | now rewrite Hc].
  - simpl. simpl in IH. now rewrite Hc, IH.
Qed.

Lemma split_on_all_chars sep s t :
  In t (split_on sep s) ->
  all_chars (fun c => negb (Ascii.eqb c sep)) t = true.
Proof.
  revert t. induction s as [|c r IH]; simpl; intros t H.
  - destruct H as [<-|[]]. reflexivity.
  - destruct (Ascii.eqb c sep) eqn:Hc.
    + destruct H as [<-|H]; [reflexivity | now apply IH].
    + destruct (split_on sep r) as [|u us].
      * destruct H as [<-|[]]. simpl. now rewrite Hc.
      * destruct H as [<-|H].
        -- simpl. rewrite Hc. simpl. apply IH. now left.
        -- apply IH. now right.
Qed.

End StripFacts.

(** X4: every track type produced by [_split_track_types] is non-empty, has
    no white space at either end (stripping it again changes nothing) and
    contains no slash; a blank cell and the placeholder "-" give no type at
    all, whatever white space surrounds them. *)
Theorem X4_split_track_types_tokens (cell : string) :
  (forall p, In p (_split_track_types cell) ->
     p <> ""
     /\ PyStr.strip p = p
     /\ all_chars (fun ch => negb (Ascii.eqb ch "/"%char)) p = true)
  /\ (PyStr.strip cell = "-" \/ PyStr.strip cell = "" ->
      _split_track_types cell = []).
Proof.
  unfold _split_track_types. cbv zeta. split.
  - intros p Hp.
    destruct (String.eqb (PyStr.strip cell) "-" || String.eqb (PyStr.strip cell) "");
      [destruct Hp|].
    apply filter_In in Hp. destruct Hp as [Hin Hne].
    apply in_map_iff in Hin. destruct Hin as [q [<- Hq]].
    split; [|split].
    + intros E. rewrite E in Hne. discriminate.
    + apply strip_idempotent.
    + unfold PyStr.strip.
      apply lstrip_all_chars, rstrip_all_chars.
      exact (split_on_all_chars _ _ _ Hq).
  - intros [E|E]; rewrite E; reflexivity.
Qed.

Lemma X4_split_track_types_tokens_witness :
  _split_track_types "  -  " = [].
Proof.
  exact (proj2 (X4_split_track_types_tokens "  -  ") (or_introl eq_refl)).
Defined.

(** X5: a parsed type bonus never carries both a core-power and a max-laps
    part: one of the two components is always 0; and when both keywords occur
    after the number, [Core] wins. *)
Theorem X5_type_bonus_one_sided (cell : string) :
  ((fst (_parse_type_bonus cell) = 0)%Z \/ (snd (_parse_type_bonus cell) = 0)%Z)
  /\ (forall p0 rest,
        PyStr.split cell = p0 :: rest -> PyStr.mem "Core" rest = true ->
        snd (_parse_type_bonus cell) = 0%Z).
Proof.
  rewrite _parse_type_bonus_tokens. split.
  - destruct (PyStr.split cell) as [|p0 rest]; [now left|].
    destruct (PyStr.int p0) as [v|]; [|now left].
    destruct (PyStr.mem "Core" rest); [now right|].
    destruct (PyStr.mem "Max" rest); now left.
  - intros p0 rest -> Hc.
    destruct (PyStr.int p0) as [v|]; [|reflexivity].
    now rewrite Hc.
Qed.

Lemma X5_type_bonus_one_sided_witness :
  snd (_parse_type_bonus "12 Max Core") = 0%Z.
Proof.
  exact (proj2 (X5_type_bonus_one_sided "12 Max Core") "12" ["Max"; "Core"]
           eq_refl eq_refl).
Defined.


(** ** The track-type vocabulary *)

Section StringOrder.

Lemma ascii_compare_refl x : Ascii.compare x x = Eq.
Proof. unfold Ascii.compare. apply N.compare_refl. Qed.

Lemma string_lt_trans a :
  forall b c, String.compare a b = Lt -> String.compare b c = Lt ->
              String.compare a c = Lt.
Proof.
  induction a as [|x a IH]; intros [|y b] [|z c]; simpl;
    try discriminate; auto.
  destruct (Ascii.compare x y) eqn:Exy; try discriminate;
    destruct (Ascii.compare y z) eqn:Eyz; try discriminate; intros H1 H2.
  - apply Ascii.compare_eq_iff in Exy, Eyz. subst.
    rewrite ascii_compare_refl. now apply IH with b.
  - apply Ascii.compare_eq_iff in Exy. subst. now rewrite Eyz.
  - apply Ascii.compare_eq_iff in Eyz. subst. now rewrite Exy.
  - unfold Ascii.compare in *. rewrite N.compare_lt_iff in Exy, Eyz.
    assert (E : (N_of_ascii x ?= N_of_ascii z)%N = Lt)
      by (apply N.compare_lt_iff; lia).
    now rewrite E.
Qed.

Lemma string_ltb_asym a b : String.ltb a b = true -> String.ltb b a = false.
Proof.
  unfold String.ltb. rewrite (String.compare_antisym b a).
  destruct (String.compare a b); simpl; congruence.
Qed.

Lemma string_trichotomy a b :
  String.ltb a b = true \/ a = b \/ String.ltb b a = true.
Proof.
  unfold String.ltb. rewrite (String.compare_antisym b a).
  destruct (String.compare a b) eqn:E; simpl; auto.
  right. left. now apply String.compare_eq_iff.
Qed.

Lemma string_ltb_trans a b c :
  String.ltb a b = true -> String.ltb b c = true -> String.ltb a c = true.
Proof.
  unfold String.ltb.
  destruct (String.compare a b) eqn:E1; try discriminate.
  destruct (String.compare b c) eqn:E2; try discriminate.
  now rewrite (string_lt_trans a b c E1 E2).
Qed.

Lemma string_le_trans a b c :
  String.ltb b a = false -> String.ltb c b = false -> String.ltb c a = false.
Proof.
  intros H1 H2. destruct (String.ltb c a) eqn:H3; [|reflexivity].
  destruct (string_trichotomy a b) as [Hab | [-> | Hba]]; [|congruence|congruence].
  destruct (string_trichotomy b c) as [Hbc | [-> | Hcb]]; [|congruence|congruence].
  pose proof (string_ltb_trans a b c Hab Hbc) as Hac.
  apply string_ltb_asym in Hac. congruence.
Qed.

End StringOrder.

Section UniqueFacts.

Context {A : Type} (eqb : A -> A -> bool).
Hypothesis eqb_eq : forall a b, eqb a b = true <-> a = b.

Lemma unique_acc_sound seen l x :
  In x (unique_acc eqb seen l) -> In x l /\ ~ In x seen.
Proof.
  revert seen. induction l as [|y r IH]; simpl; [tauto|].
  intros seen H. destruct (existsb (eqb y) seen) eqn:E.
  - destruct (IH _ H). tauto.
  - destruct H as [<-|H].
    + split; [now left|]. intros Hs.
      assert (existsb (eqb y) seen = true).
      { apply existsb_exists. exists y. split; [assumption | now apply eqb_eq]. }
      congruence.
    + destruct (IH _ H) as [Hin Hns]. split; [now right|].
      intros Hs. apply Hns. now right.
Qed.

Lemma unique_acc_NoDup seen l : NoDup (unique_acc eqb seen l).
Proof.
  revert seen. induction l as [|y r IH]; simpl; intros seen; [constructor|].
  destruct (existsb (eqb y) seen); [apply IH|].
  constructor; [|apply IH].
  intros H. apply unique_acc_sound in H. destruct H as [_ H]. apply H. now left.
Qed.

End UniqueFacts.

(** X6: the vocabulary [TRACK_TYPES] of a reachable object consists exactly of
    the track types occurring in the tracks table, each listed once, in
    strictly ascending order of Python's string comparison. *)
Theorem X6_track_types_vocabulary (c : Config) (e : Env) :
  reachable c e ->
  (forall ty, In ty (TRACK_TYPES e)
              <-> exists tr, In tr (cfg_tracks c) /\ Track_Type tr = ty)
  /\ NoDup (TRACK_TYPES e)
  /\ StronglySorted (fun a b => String.ltb a b = true) (TRACK_TYPES e).
Proof.
  intros Hr. apply reachable_Inv in Hr. rewrite (inv_types c e Hr).
  unfold track_types_of.
  set (u := unique String.eqb (map Track_Type (cfg_tracks c))).
  assert (Hp : Permutation (sorted String.ltb u) u) by apply sorted_perm.
  assert (Hu : NoDup u) by apply (unique_acc_NoDup String.eqb String.eqb_eq).
  assert (Hn : NoDup (sorted String.ltb u))
    by (apply (Permutation_NoDup (Permutation_sym Hp)); exact Hu).
  split; [|split].
  - intros ty. split.
    + intros H. apply (Permutation_in _ Hp) in H.
      apply (unique_acc_sound String.eqb String.eqb_eq) in H.
      destruct H as [H _]. apply in_map_iff in H.
      destruct H as [tr [E Hin]]. eauto.
    + intros [tr [Hin <-]]. now apply track_types_of_In.
  - exact Hn.
  - pose proof (sorted_sorted String.ltb string_ltb_asym
                  (fun a b c => string_le_trans a b c) u) as Hs.
    clear Hp. revert Hn Hs. generalize (sorted String.ltb u). intros l Hn Hs.
    induction Hs as [|a l Hs IH Ha]; [constructor|].
    inversion Hn as [|? ? Hnotin Hn']; subst.
    constructor; [now apply IH|].
    rewrite Forall_forall in *. intros b Hb.
    specialize (Ha b Hb). unfold le_of in Ha.
    destruct (string_trichotomy a b) as [H | [-> | H]];
      [assumption | contradiction | congruence].
Qed.

Lemma X6_track_types_vocabulary_witness :
  NoDup (TRACK_TYPES Demo.env)
  /\ StronglySorted (fun a b => String.ltb a b = true) (TRACK_TYPES Demo.env).
Proof.
  exact (proj2 (X6_track_types_vocabulary Demo.config Demo.env
                  (reach_make Demo.config Demo.env eq_refl))).
Defined.

(** ** Observations *)

Lemma index_Some {A : Type} (eqb : A -> A -> bool)
    (eqb_eq : forall a b, eqb a b = true <-> a = b) x (l : list A) k :
  index eqb x l = Some k -> nth_error l k = Some x /\ (k < length l)%nat.
Proof.
  revert k. induction l as [|y r IH]; simpl; intros k H; [discriminate|].
  destruct (eqb y x) eqn:E.
  - injection H as <-. apply eqb_eq in E. subst. split; [reflexivity | lia].
  - destruct (index eqb x r) as [k'|]; [|discriminate].
    injection H as <-. destruct (IH k' eq_refl). split; [assumption | lia].
Qed.

Lemma onehot_length n k : length (onehot n k) = n.
Proof. unfold onehot. now rewrite length_map, length_seq. Qed.


Lemma _get_obs_shape e o :
  _get_obs e = inr o ->
  exists tr k,
    _track_row e = inr tr
    /\ index String.eqb (Track_Type tr) (TRACK_TYPES e) = Some k
    /\ o = [Some (Car_Core_Power (agent_car e));
            Some (inject_Z (Car_Max_Laps (agent_car e)))]
           ++ onehot (length (TRACK_TYPES e)) k
           ++ [Some (inject_Z (Total_Laps tr));
               mean (map Car_Core_Power (opponents_df e));
               mean (map (fun c => inject_Z (Car_Max_Laps c)) (opponents_df e))].
Proof.
  unfold _get_obs. destruct (_track_row e) as [x|tr]; [discriminate|].
  cbn [bind].
  destruct (index String.eqb (Track_Type tr) (TRACK_TYPES e)) as [k|] eqn:E;
    [|discriminate].
  intros H. injection H as <-. now exists tr, k.
Qed.

Lemma _get_obs_length e o :
  _get_obs e = inr o -> length o = (2 + length (TRACK_TYPES e) + 1 + 2)%nat.
Proof.
  intros H. destruct (_get_obs_shape e o H) as (tr & k & _ & _ & ->).
  cbn [app length]. rewrite length_app, onehot_length. simpl. lia.
Qed.

(** X7: every observation handed out by a reachable object, by [reset] or by
    [step], has the same length [obs_dim] = number of track types + 5; the
    observation of a terminating step is the zero vector. *)
Theorem X7_observation_length (c : Config) (e : Env) :
  reachable c e ->
  obs_dim e = (length (TRACK_TYPES e) + 5)%nat
  /\ (forall sample o, snd (reset e sample) = inr o -> length o = obs_dim e)
  /\ (forall action noise e' out,
        step e action noise = (e', inr out) ->
        length (obs out) = obs_dim e
        /\ (terminated out = true -> obs out = repeat (Some 0) (obs_dim e))).
Proof.
  intros Hr. apply reachable_Inv in Hr.
  pose proof (inv_obs_dim c e Hr) as Hd.
  split; [lia|]. split.
  - intros sample o H. unfold reset in H. cbn [snd] in H.
    apply _get_obs_length in H. cbn in H. lia.
  - intros action noise e' out H.
    destruct (step_out_shape _ _ _ _ _ H)
      as (g & pos & pts & act & _ & _ & _ & -> & Ho & _ & Ht & _).
    rewrite Ht.
    destruct (length (_tracks_df e) <=? track_idx e + 1)%nat.
    + rewrite Ho, repeat_length. split; [reflexivity | intros _; reflexivity].
    + apply _get_obs_length in Ho. cbn in Ho.
      split; [lia | discriminate].
Qed.

Lemma X7_observation_length_witness :
  length (obs (Demo.returned Demo.race1)) = obs_dim Demo.env.
Proof.
  exact (proj1 (proj2 (proj2 (X7_observation_length Demo.config Demo.env
           (reach_make Demo.config Demo.env eq_refl)))
           2%Z Demo.quiet (fst Demo.race1) (Demo.returned Demo.race1) eq_refl)).
Defined.






(** ** The ranking as a whole *)


Section StableFacts.

Context (ltb : nat -> nat -> bool).
Hypothesis ltb_asym : forall a b, ltb a b = true -> ltb b a = false.
Hypothesis le_trans :
  forall a b c, le_of ltb a b -> le_of ltb b c -> le_of ltb a c.















End StableFacts.


Lemma index_of_nth (l : list nat) k x :
  NoDup l -> nth_error l k = Some x -> index Nat.eqb x l = Some k.
Proof.
  intros Hn Hk.
  assert (Hin : In x l) by (eapply nth_error_In; eassumption).
  destruct (index_In Nat.eqb Nat.eqb_eq x l Hin) as [k' [E Hk']].
  destruct (index_Some Nat.eqb Nat.eqb_eq x l k' E) as [Hn' _].
  rewrite E. f_equal.
  apply (proj1 (NoDup_nth_error l) Hn k' k); [assumption | congruence].
Qed.

Lemma index_None (l : list nat) x : ~ In x l -> index Nat.eqb x l = None.
Proof.
  induction l as [|y r IH]; simpl; intros H; [reflexivity|].
  destruct (Nat.eqb_spec y x) as [->|Hne]; [exfalso; apply H; now left|].
  rewrite IH by tauto. reflexivity.
Qed.

Section RankingFacts.

Variables (grid_core : list Q) (grid_dnf : list bool) (noise : nat -> Q).

Let klt := fun i j : nat =>
  key_lt (rank_key grid_core grid_dnf noise i) (rank_key grid_core grid_dnf noise j).




Lemma rank_order_NoDup : NoDup (rank_order grid_core grid_dnf noise).
Proof.
  apply (Permutation_NoDup
           (Permutation_sym (rank_order_perm grid_core grid_dnf noise))).
  apply seq_NoDup.
Qed.




End RankingFacts.

(** X9: the positions computed by the resolver number the grid: an index has
    a position exactly when it is an index of the grid (any other index makes
    [order.index] fail), positions lie between 1 and the grid size, two
    different entries never share a position, and every position from 1 to
    the grid size is taken. *)
Theorem X9_positions_number_the_grid (grid_core : list Q)
    (grid_dnf : list bool) (noise : nat -> Q) :
  (forall i, (i < length grid_core)%nat
             <-> exists p, rank_position grid_core grid_dnf noise i = Some p)
  /\ (forall i p, rank_position grid_core grid_dnf noise i = Some p ->
                  (1 <= p <= length grid_core)%nat)
  /\ (forall i j p, rank_position grid_core grid_dnf noise i = Some p ->
                    rank_position grid_core grid_dnf noise j = Some p -> i = j)
  /\ (forall p, (1 <= p <= length grid_core)%nat ->
                exists i, rank_position grid_core grid_dnf noise i = Some p).
Proof.
  pose proof (rank_order_NoDup grid_core grid_dnf noise) as Hn.
  pose proof (rank_order_length grid_core grid_dnf noise) as Hl.
  assert (Hpos : forall i p,
             rank_position grid_core grid_dnf noise i = Some p ->
             exists k, p = (k + 1)%nat
                       /\ nth_error (rank_order grid_core grid_dnf noise) k = Some i
                       /\ (k < length grid_core)%nat).
  { intros i p H. unfold rank_position in H.
    destruct (index Nat.eqb i _) as [k|] eqn:E; [|discriminate].
    injection H as <-. apply (index_Some Nat.eqb Nat.eqb_eq) in E.
    exists k. rewrite <- Hl. tauto. }
  split; [|split; [|split]].
  - intros i. split.
    + intros H. destruct (rank_position_range grid_core grid_dnf noise i H)
        as [p [E _]]. eauto.
    + intros [p H]. destruct (Hpos i p H) as (k & _ & Hk & _).
      apply nth_error_In in Hk. now apply rank_order_In in Hk.
  - intros i p H. destruct (Hpos i p H) as (k & -> & _ & Hk). lia.
  - intros i j p Hi Hj.
    destruct (Hpos i p Hi) as (k & -> & Hk & _).
    destruct (Hpos j _ Hj) as (k' & E & Hk' & _).
    assert (k' = k) by lia. subst. congruence.
  - intros p Hp.
    destruct (nth_error (rank_order grid_core grid_dnf noise) (p - 1))
      as [i|] eqn:E.
    + exists i. unfold rank_position.
      rewrite (index_of_nth _ _ _ Hn E). simpl. f_equal. lia.
    + apply nth_error_None in E. lia.
Qed.

Lemma X9_positions_number_the_grid_witness :
  exists i, rank_position [300; 350; 320] [true; false; false] Demo.quiet i
            = Some 2%nat.
Proof.
  apply (proj2 (proj2 (proj2 (X9_positions_number_the_grid [300; 350; 320]
           [true; false; false] Demo.quiet)))).
  simpl. lia.
Defined.






(** ** Episodes *)





Lemma map_inr_cons {A : Type} (r : res A) rs (outs : list A) :
  r :: rs = map inr outs ->
  exists out outs', outs = out :: outs' /\ r = inr out /\ rs = map inr outs'.
Proof.
  destruct outs as [|out outs']; simpl; intros H; [discriminate|].
  injection H as -> ->. eauto.
Qed.

(** X13: along any run of returned [step] calls the accumulated return is the
    starting value plus the rewards in call order, the cursor advances by one
    per call and the track order is untouched; a step reports
    [episode_return] exactly when it terminates, and then it reports the
    accumulated return including its own reward. *)
Theorem X13_return_accumulates (inputs : list (Z * (nat -> Q))) :
  forall (e eN : Env) (outs : list StepOut),
    run_steps e inputs = (eN, map inr outs) ->
    total_reward eN = fold_left Qplus (map reward outs) (total_reward e)
    /\ track_idx eN = (track_idx e + length outs)%nat
    /\ _tracks_df eN = _tracks_df e
    /\ (forall k out,
          nth_error outs k = Some out ->
          episode_return (info out)
          = if terminated out
            then Some (fold_left Qplus (map reward (firstn (S k) outs))
                         (total_reward e))
            else None).
Proof.
  induction inputs as [|[a nz] rest IH]; intros e eN outs H.
  - simpl in H. injection H as <- H.
    destruct outs; [|discriminate]. simpl.
    split_ands; try reflexivity; try lia.
    intros [|k] out Hk; discriminate.
  - simpl in H.
    destruct (step e a nz) as [e1 r] eqn:Es.
    destruct (run_steps e1 rest) as [e2 rs] eqn:Er.
    injection H as <- H.
    destruct (map_inr_cons _ _ _ H) as (out & outs' & -> & -> & ->).
    destruct (step_out_shape _ _ _ _ _ Es)
      as (g & pos & pts & act & _ & _ & _ & -> & _ & Hrw & Ht & _ & Hinfo).
    destruct (IH _ _ _ Er) as (Htot & Hidx & Htr & Hret).
    split; [|split; [|split]].
    + rewrite Htot. simpl. now rewrite Hrw.
    + rewrite Hidx. simpl. lia.
    + rewrite Htr. reflexivity.
    + intros [|k] o Hk.
      * simpl in Hk. injection Hk as <-.
        cbn [firstn map fold_left].
        rewrite Hinfo, Ht, Hrw. cbn [episode_return]. reflexivity.
      * simpl in Hk. rewrite (Hret k o Hk).
        cbn [firstn map fold_left]. simpl total_reward. now rewrite Hrw.
Qed.

Lemma X13_return_accumulates_witness :
  total_reward (fst Demo.race1)
  = fold_left Qplus (map reward [Demo.returned Demo.race1])
      (total_reward Demo.env).
Proof.
  exact (proj1 (X13_return_accumulates [(2%Z, Demo.quiet)] Demo.env
                  (fst Demo.race1) [Demo.returned Demo.race1] eq_refl)).
Defined.







(** ** Points and rewards *)

Lemma nth_error_padded (base : list Z) (n k : nat) (p : Z) :
  nth_error (base ++ repeat 0%Z n) k = Some p -> In p base \/ p = 0%Z.
Proof.
  intros H. apply nth_error_In in H. apply in_app_or in H.
  destruct H as [H|H]; [now left|]. right. now apply repeat_spec in H.
Qed.

(** X16: the points of a returned [step] are 0 or an entry of the points
    table chosen at construction, and the reward is that number; hence, when
    that table has no negative entry, no reward is negative and the
    accumulated return never decreases. *)
Theorem X16_points_come_from_the_table (c : Config) (e : Env) (action : Z)
    (noise : nat -> Q) (e' : Env) (out : StepOut) :
  reachable c e ->
  step e action noise = (e', inr out) ->
  (points (info out) = 0%Z
   \/ In (points (info out)) (points_or_default (cfg_points c)))
  /\ reward out = inject_Z (points (info out))
  /\ (Forall (fun p => (0 <= p)%Z) (points_or_default (cfg_points c)) ->
      (0 <= points (info out))%Z
      /\ 0 <= reward out
      /\ total_reward e <= total_reward e').
Proof.
  intros Hr H. apply reachable_Inv in Hr.
  destruct (step_out_shape _ _ _ _ _ H)
    as (g & pos & pts & act & _ & Hrank & _ & -> & _ & Hrw & _ & _ & Hinfo).
  rewrite Hinfo, Hrw. cbn [points info].
  assert (Hpts : pts = 0%Z \/ In pts (points_or_default (cfg_points c))).
  { unfold _rank_and_points, getitem in Hrank.
    destruct (rank_position _ _ _ _) as [p|]; [|discriminate].
    destruct (nth_error (grid_dnf g) (agent_grid_idx g)) as [d|];
      [|discriminate].
    cbn [bind] in Hrank. destruct d; cbn [negb bind] in Hrank.
    - injection Hrank as _ <-. now left.
    - destruct (nth_error (points_by_position e) (p - 1)) as [q|] eqn:Eq;
        [|discriminate].
      cbn [bind] in Hrank. injection Hrank as _ <-.
      rewrite (inv_points c e Hr), pad_points_app in Eq.
      apply nth_error_padded in Eq. tauto. }
  split; [exact Hpts|]. split; [reflexivity|].
  intros Hall.
  assert (Hnn : (0 <= pts)%Z).
  { destruct Hpts as [->|Hin]; [lia|].
    rewrite Forall_forall in Hall. now apply Hall. }
  assert (Hq : 0 <= inject_Z pts).
  { unfold Qle. simpl. lia. }
  split; [exact Hnn|]. split; [exact Hq|].
  cbn. lra.
Qed.

Lemma X16_points_come_from_the_table_witness :
  (0 <= points (info (Demo.returned Demo.race1)))%Z.
Proof.
  destruct (X16_points_come_from_the_table Demo.config Demo.env 2 Demo.quiet
              (fst Demo.race1) (Demo.returned Demo.race1)
              (reach_make Demo.config Demo.env eq_refl) eq_refl)
    as (_ & _ & Hnn).
  apply Hnn. repeat constructor; simpl; lia.
Defined.



(** ** From the condition cell to the bonus *)

(** X18: for a catalog entry built from an upgrade row, the agent's stats
    follow the row's condition cell: if the cell is blank or "-" the row's
    bonuses are added on every track type; if the cell names track types, they
    are added exactly on the track types [_split_track_types] reads from it. *)
Theorem X18_condition_cell_decides_bonus (e : Env) (row : UpgradeRow)
    (idx : nat) (base_core : Q) (base_max : Z) (track_type : string)
    (tb_core tb_max : Z) :
  nth_error (actions_catalog e) idx = Some (action_of_row row) ->
  let with_bonus :=
    (base_core + inject_Z tb_core + Upg_Core_Power row,
     (base_max + tb_max + Upg_Max_Laps row)%Z, true) in
  let without_bonus :=
    (base_core + inject_Z tb_core, (base_max + tb_max)%Z, true) in
  (PyStr.strip (Track_Type_Condition row) = "-"
   \/ PyStr.strip (Track_Type_Condition row) = "" ->
   _effective_stats_for_car e base_core base_max track_type tb_core tb_max idx
   = inr with_bonus)
  /\ (In track_type (_split_track_types (Track_Type_Condition row)) ->
      _effective_stats_for_car e base_core base_max track_type tb_core tb_max idx
      = inr with_bonus)
  /\ (_split_track_types (Track_Type_Condition row) <> [] ->
      ~ In track_type (_split_track_types (Track_Type_Condition row)) ->
      _effective_stats_for_car e base_core base_max track_type tb_core tb_max idx
      = inr without_bonus).
Proof.
  intros Hact with_bonus without_bonus.
  rewrite _effective_stats_for_car_spec, Hact.
  change (add_core (action_of_row row)) with (Upg_Core_Power row).
  change (add_max (action_of_row row)) with (Upg_Max_Laps row).
  fold with_bonus without_bonus.
  split; [|split].
  - intros Hblank.
    assert (E : applies_to (action_of_row row) track_type = true).
    { apply applies_to_iff. left. unfold action_of_row, _CondTypesSet. cbn [cond].
      unfold _split_track_types. cbv zeta.
      destruct Hblank as [-> | ->]; reflexivity. }
    now rewrite E.
  - intros Hin.
    assert (E : applies_to (action_of_row row) track_type = true)
      by (apply applies_to_iff; now right).
    now rewrite E.
  - intros Hne Hnot.
    destruct (applies_to (action_of_row row) track_type) eqn:E; [|reflexivity].
    apply applies_to_iff in E. destruct E as [E|E]; contradiction.
Qed.

Lemma X18_condition_cell_decides_bonus_witness :
  _effective_stats_for_car Demo.env 300 50 "Sunny" 30 0 1
  = inr (300 + inject_Z 30 + 20, (50 + 0 + 0)%Z, true).
Proof.
  exact (proj1 (X18_condition_cell_decides_bonus Demo.env
                  {| Upgrade := "Upgrade 01"; Upg_Core_Power := 20;
                     Upg_Max_Laps := 0; Track_Type_Condition := "-" |}
                  1 300 50%Z "Sunny" 30%Z 0%Z eq_refl)
           (or_introl eq_refl)).
Defined.

(** ** Which track each step races *)

Lemma skipn_nth_error {A : Type} (l : list A) k x :
  nth_error l k = Some x -> skipn k l = x :: skipn (S k) l.
Proof.
  revert l. induction k as [|k IH]; intros [|y r] H; try discriminate.
  - injection H as <-. reflexivity.
  - simpl in H. change (skipn (S k) (y :: r)) with (skipn k r).
    rewrite (IH r H). reflexivity.
Qed.

(** X19: a run of returned [step] calls races the tracks of the installed
    sequence one after the other, starting at the cursor and skipping none:
    the track names, track types and required laps reported by the steps are
    those of the consecutive tracks from the cursor on. *)
Theorem X19_steps_follow_the_track_order (inputs : list (Z * (nat -> Q))) :
  forall (e eN : Env) (outs : list StepOut),
    run_steps e inputs = (eN, map inr outs) ->
    map (fun o => (info_track (info o), info_track_type (info o),
                   required_laps (info o))) outs
    = map (fun tr => (Track tr, Track_Type tr, Total_Laps tr))
        (firstn (length outs) (skipn (track_idx e) (_tracks_df e))).
Proof.
  induction inputs as [|[a nz] rest IH]; intros e eN outs H.
  - simpl in H. injection H as _ H. destruct outs; [reflexivity | discriminate].
  - simpl in H.
    destruct (step e a nz) as [e1 r] eqn:Es.
    destruct (run_steps e1 rest) as [e2 rs] eqn:Er.
    injection H as _ H.
    destruct (map_inr_cons _ _ _ H) as (out & outs' & -> & -> & ->).
    destruct (step_out_shape _ _ _ _ _ Es)
      as (g & pos & pts & act & Hg & _ & _ & -> & _ & _ & _ & _ & Hinfo).
    destruct (step_grid_inr e a g Hg) as (tr & act' & Htr & _ & ->).
    unfold _track_row in Htr.
    destruct (nth_error (_tracks_df e) (track_idx e)) as [tr'|] eqn:En;
      [|discriminate].
    injection Htr as ->.
    rewrite (skipn_nth_error _ _ _ En).
    cbn [length firstn map]. f_equal.
    + rewrite Hinfo. reflexivity.
    + rewrite (IH _ _ _ Er). cbn [advance set_runtime _tracks_df track_idx].
      now replace (track_idx e + 1)%nat with (S (track_idx e)) by lia.
Qed.

Lemma X19_steps_follow_the_track_order_witness :
  map (fun o => (info_track (info o), info_track_type (info o),
                 required_laps (info o))) [Demo.returned Demo.race1]
  = [("Track 01", "Sunny", 50%Z)].
Proof.
  exact (X19_steps_follow_the_track_order [(2%Z, Demo.quiet)] Demo.env
           (fst Demo.race1) [Demo.returned Demo.race1] eq_refl).
Defined.
